(** * An online code judge: executor, result parser and orchestrator

    Shallow embedding of [server/services/codeExecutor.ts],
    [server/routes/judge.ts] and [server/config/database.ts], the
    properties of the judge core that its specification states, and
    further properties of the code (X2, X3, ...).

    Layout:
    - [Text]      JavaScript strings as sequences of UTF-16 code units;
    - [Json]      the values [JSON.parse] builds, and [JSON.parse] itself;
    - [Executor]  [CodeExecutor]: the three [execute*] pipelines, their
                  process runners and [parseJudgeOutput], over an explicit
                  file system and event trace;
    - [Harness]   the per-test step of the generated JavaScript and Python
                  drivers;
    - [Judge]     the [judgeSubmission] request handler;
    - [Spec], [Fixtures]  the vocabulary of the properties and the concrete
                  inputs used below;
    - [Observe], [Scenes], [Requests]  the same for the further properties
                  of the pipelines and of the handler;
    - [Database]  the connection that [config/database.ts] keeps, with its
                  calls split where they wait;
    - [CppHarness]  the [main] of the generated C++ driver; [Reading] and
                  [Inputs], the vocabulary of its properties;
    - the theorems, one block per property.

    What the model takes from outside.  The outcome of every system call
    and of every child process is given by the environment ([env]): whether
    [mkdir], [writeFile] and [unlink] succeed, what [Date.now()] returns,
    whether the compiler and the child end, how, and what they print.  A
    child leaves the files of the judge alone unless the environment says
    that an [unlink] fails.  The texts of engine-made errors, which differ
    between engines, are symbolic in the executor and parameters of the
    drivers.  User code runs inside the generated driver: the drivers are
    modelled one test at a time, by what a call gives back to the step
    that makes it, what the Python handlers find [str] bound to, and, for
    C++, what the calls write to standard output. *)

From Stdlib Require Import ZArith NArith Ascii String List Bool Lia.
From stdpp Require Import base option list strings gmap pretty.

Set Warnings "-register-all".
Local Open Scope N_scope.

(** ** JavaScript strings *)

Module Text.

(** A JavaScript string is a finite sequence of UTF-16 code units. *)
Definition text := list N.

Definition ch (a : ascii) : N := N_of_ascii a.

Definition txt (s : string) : text := map N_of_ascii (list_ascii_of_string s).

(** Fixtures are written with an apostrophe wherever the JavaScript text
    has a double quote. *)
Definition dq (s : string) : text :=
  map (fun c => if c =? 39 then 34 else c) (txt s).

Definition text_eqb (a b : text) : bool := bool_decide (a = b).

(** [s.includes(c)] for a one-character needle. *)
Definition includes (c : N) (s : text) : bool := existsb (N.eqb c) s.

(** The tail of [s] after the prefix [p], when [s] starts with [p]. *)
Fixpoint strip_prefix (p s : text) : option text :=
  match p, s with
  | [], _ => Some s
  | a :: p', b :: s' => if a =? b then strip_prefix p' s' else None
  | _ :: _, [] => None
  end.

(** The longest prefix of [s] whose characters satisfy [f], and the rest. *)
Fixpoint span (f : N -> bool) (s : text) : text * text :=
  match s with
  | c :: s' =>
      if f c then let '(a, b) := span f s' in (c :: a, b) else ([], s)
  | [] => ([], [])
  end.

Definition is_digit (c : N) : bool := (48 <=? c) && (c <=? 57).

(** Value of a sequence of decimal digits. *)
Definition decimal (ds : text) : N :=
  fold_left (fun acc d => 10 * acc + (d - 48)) ds 0.

End Text.
Export Text.

(** ** JSON values and [JSON.parse] *)

Module Json.

(** A JSON number [(-1)^neg * mantissa * 10^exp10], kept exact. *)
Record number := Number { neg : bool; mantissa : N; exp10 : Z }.

(** What [JSON.parse] returns.  An object keeps its members in source order,
    duplicates included; a lookup takes the last one, as the engine does. *)
Inductive json :=
| JNull
| JBool (b : bool)
| JNum (n : number)
| JStr (s : text)
| JArr (xs : list json)
| JObj (ms : list (text * json)).

(** *** Lexer: one pass over the code units *)

Inductive token :=
| TLBracket | TRBracket | TLBrace | TRBrace | TComma | TColon
| TAtom (v : json).

Inductive lexmode :=
| LIdle
| LWord (acc : text)                      (* a literal or number, reversed *)
| LString (acc : text)                    (* inside quotes, reversed *)
| LEscape (acc : text)                    (* just after a backslash *)
| LUnicode (acc : text) (code : N) (seen : nat).  (* inside \uXXXX *)

Definition is_ws (c : N) : bool :=
  (c =? 32) || (c =? 9) || (c =? 10) || (c =? 13).

Definition is_alpha (c : N) : bool :=
  ((65 <=? c) && (c <=? 90)) || ((97 <=? c) && (c <=? 122)).

(** Characters of numbers and of the literals [true], [false], [null]. *)
Definition is_word (c : N) : bool :=
  is_digit c || is_alpha c || (c =? ch "+") || (c =? ch "-") || (c =? ch ".").

Definition hex_value (c : N) : option N :=
  if is_digit c then Some (c - 48)
  else if (65 <=? c) && (c <=? 70) then Some (c - 55)
  else if (97 <=? c) && (c <=? 102) then Some (c - 87)
  else None.

(** The JSON number grammar: an optional minus sign; an integer part that
    is a single zero or starts with a non-zero digit; an optional fraction
    (a dot and at least one digit); an optional exponent (e or E, an
    optional sign, at least one digit). *)
Definition parse_number (w : text) : option number :=
  let '(sign, w) :=
    match w with
    | c :: w' => if c =? ch "-" then (true, w') else (false, w)
    | [] => (false, w)
    end in
  let '(ip, w) := span is_digit w in
  match ip with
  | [] => None
  | d :: ip' =>
      if (d =? ch "0") && negb (bool_decide (ip' = [])) then None else
      let frac :=
        match w with
        | c :: w' =>
            if c =? ch "." then
              let '(fp, w'') := span is_digit w' in
              match fp with [] => None | _ => Some (fp, w'') end
            else Some ([], w)
        | [] => Some ([], w)
        end in
      match frac with
      | None => None
      | Some (fp, w) =>
          let expo :=
            match w with
            | [] => Some 0%Z
            | c :: w' =>
                if (c =? ch "e") || (c =? ch "E") then
                  let '(esign, w'') :=
                    match w' with
                    | s :: r =>
                        if s =? ch "-" then (true, r)
                        else if s =? ch "+" then (false, r)
                        else (false, w')
                    | [] => (false, w')
                    end in
                  let '(ep, rest) := span is_digit w'' in
                  match ep, rest with
                  | _ :: _, [] =>
                      let e := Z.of_N (decimal ep) in
                      Some (if esign then (- e)%Z else e)
                  | _, _ => None
                  end
                else None
            end in
          match expo with
          | None => None
          | Some e =>
              Some (Number sign (decimal (ip ++ fp))
                           (e - Z.of_nat (length fp))%Z)
          end
      end
  end.

Definition classify_word (w : text) : option json :=
  if text_eqb w (txt "null") then Some JNull
  else if text_eqb w (txt "true") then Some (JBool true)
  else if text_eqb w (txt "false") then Some (JBool false)
  else JNum <$> parse_number w.

Definition lex_idle (c : N) (out : list token) : option (lexmode * list token) :=
  if is_ws c then Some (LIdle, out)
  else if c =? ch "[" then Some (LIdle, TLBracket :: out)
  else if c =? ch "]" then Some (LIdle, TRBracket :: out)
  else if c =? ch "{" then Some (LIdle, TLBrace :: out)
  else if c =? ch "}" then Some (LIdle, TRBrace :: out)
  else if c =? ch "," then Some (LIdle, TComma :: out)
  else if c =? ch ":" then Some (LIdle, TColon :: out)
  else if c =? 34 then Some (LString [], out)
  else if is_word c then Some (LWord [c], out)
  else None.

Definition unescape (c : N) : option N :=
  if c =? 34 then Some 34
  else if c =? ch "\" then Some (ch "\")
  else if c =? ch "/" then Some (ch "/")
  else if c =? ch "b" then Some 8
  else if c =? ch "f" then Some 12
  else if c =? ch "n" then Some 10
  else if c =? ch "r" then Some 13
  else if c =? ch "t" then Some 9
  else None.

Definition lex_step (st : lexmode * list token) (c : N)
  : option (lexmode * list token) :=
  let '(mode, out) := st in
  match mode with
  | LIdle => lex_idle c out
  | LWord acc =>
      if is_word c then Some (LWord (c :: acc), out)
      else match classify_word (rev acc) with
           | Some v => lex_idle c (TAtom v :: out)
           | None => None
           end
  | LString acc =>
      if c =? 34 then Some (LIdle, TAtom (JStr (rev acc)) :: out)
      else if c =? ch "\" then Some (LEscape acc, out)
      else if c <? 32 then None
      else Some (LString (c :: acc), out)
  | LEscape acc =>
      if c =? ch "u" then Some (LUnicode acc 0 0%nat, out)
      else match unescape c with
           | Some d => Some (LString (d :: acc), out)
           | None => None
           end
  | LUnicode acc code seen =>
      match hex_value c with
      | Some h =>
          let code' := 16 * code + h in
          if Nat.eqb seen 3 then Some (LString (code' :: acc), out)
          else Some (LUnicode acc code' (S seen), out)
      | None => None
      end
  end.

Definition lex_end (st : lexmode * list token) : option (list token) :=
  let '(mode, out) := st in
  match mode with
  | LIdle => Some (rev out)
  | LWord acc => (fun v => rev (TAtom v :: out)) <$> classify_word (rev acc)
  | _ => None
  end.

Definition lex (s : text) : option (list token) :=
  foldl (fun st c => st ≫= fun st => lex_step st c) (Some (LIdle, [])) s
    ≫= lex_end.

(** *** Parser: a pushdown automaton over the tokens *)

Inductive frame :=
| FArr (items : list json)              (* elements so far, reversed *)
| FObj (members : list (text * json))   (* members so far, reversed *)
| FKey (k : text).                      (* a key waiting for its value *)

Inductive expect :=
| EValue           (* a value *)
| EValueOrEnd      (* just after an opening bracket *)
| EKeyOrEnd        (* just after an opening brace *)
| EKey             (* after a comma in an object *)
| EColon (k : text)
| ESep             (* after a value inside a container *)
| EDone (v : json).

Definition pstate : Type := expect * list frame.

(** A complete value goes to the innermost open container. *)
Definition deliver (v : json) (stack : list frame) : option pstate :=
  match stack with
  | [] => Some (EDone v, [])
  | FArr items :: st => Some (ESep, FArr (v :: items) :: st)
  | FKey k :: FObj ms :: st => Some (ESep, FObj ((k, v) :: ms) :: st)
  | _ => None
  end.

Definition start_value (t : token) (stack : list frame) : option pstate :=
  match t with
  | TAtom v => deliver v stack
  | TLBracket => Some (EValueOrEnd, FArr [] :: stack)
  | TLBrace => Some (EKeyOrEnd, FObj [] :: stack)
  | _ => None
  end.

Definition close (t : token) (stack : list frame) : option pstate :=
  match t, stack with
  | TRBracket, FArr items :: st => deliver (JArr (rev items)) st
  | TRBrace, FObj ms :: st => deliver (JObj (rev ms)) st
  | _, _ => None
  end.

Definition parse_step (st : pstate) (t : token) : option pstate :=
  let '(e, stack) := st in
  match e with
  | EValue => start_value t stack
  | EValueOrEnd =>
      match t with TRBracket => close t stack | _ => start_value t stack end
  | EKeyOrEnd =>
      match t with
      | TRBrace => close t stack
      | TAtom (JStr k) => Some (EColon k, stack)
      | _ => None
      end
  | EKey =>
      match t with TAtom (JStr k) => Some (EColon k, stack) | _ => None end
  | EColon k =>
      match t with TColon => Some (EValue, FKey k :: stack) | _ => None end
  | ESep =>
      match t, stack with
      | TComma, FArr _ :: _ => Some (EValue, stack)
      | TComma, FObj _ :: _ => Some (EKey, stack)
      | TComma, _ => None
      | _, _ => close t stack
      end
  | EDone _ => None
  end.

Definition parse_tokens (ts : list token) : option json :=
  match foldl (fun st t => st ≫= fun st => parse_step st t)
              (Some (EValue, [])) ts with
  | Some (EDone v, []) => Some v
  | _ => None
  end.

(** [JSON.parse(s)]: [None] stands for the [SyntaxError] it throws.  The
    engine's recursion limit is not modelled. *)
Definition JSON_parse (s : text) : option json := lex s ≫= parse_tokens.

End Json.
Export Json.

(** ** The parts of the JavaScript semantics that the judge relies on *)

Module Js.

(** Exceptions.  The message of an engine-made error differs between
    engines, so those errors are kept symbolic. *)
Inductive exn :=
| Error (message : text)          (* [new Error(message)] *)
| SystemError (message : text)    (* made by the runtime for a failed system call *)
| JsonSyntaxError (source : text) (* [JSON.parse(source)] *)
| NotAFunction                    (* calling a property that is no function *)
| NullProperty                    (* reading a property of [null] or [undefined] *)
| NotPrimitive.                   (* an object with no usable [toString]/[valueOf] *)

(** A computation that returns or throws. *)
Definition completion (A : Type) : Type := exn + A.

(** [ToBoolean] on a JSON number: the double nearest to
    [mantissa * 10^exp10] is zero when the mantissa is, or when the
    value is at most [2^-1075] (half the least subnormal). *)
Definition number_is_zero (n : number) : bool :=
  (mantissa n =? 0) ||
  ((exp10 n <? 0)%Z &&
   (Z.of_N (mantissa n) * 2 ^ 1075 <=? 10 ^ (- exp10 n))%Z).

(** [ToBoolean]; [None] is [undefined]. *)
Definition truthy (v : option json) : bool :=
  match v with
  | None | Some JNull => false
  | Some (JBool b) => b
  | Some (JNum n) => negb (number_is_zero n)
  | Some (JStr s) => negb (bool_decide (s = []))
  | Some (JArr _) | Some (JObj _) => true
  end.

Definition own (k : text) (ms : list (text * json)) : option json :=
  snd <$> find (fun m => text_eqb (fst m) k) (rev ms).

(** [v.k] for a name [k] that no prototype defines ([passed],
    [executionTime], [questionId], ...): an own member of an object,
    [undefined] on every other value, a [TypeError] on [null]. *)
Definition getProp (v : json) (k : text) : completion (option json) :=
  match v with
  | JNull => inl NullProperty
  | JObj ms => inr (own k ms)
  | _ => inr None
  end.

(** Whether [ToPrimitive] throws.  An object made by [JSON.parse] inherits
    [valueOf], which returns the object itself, and [toString]; an own
    member called [toString] hides the inherited one and is never
    callable.  An array is joined, which converts each element that is
    neither [null] nor [undefined]. *)
Fixpoint toPrimitive_throws (v : json) : bool :=
  match v with
  | JObj ms => bool_decide (is_Some (own (txt "toString") ms))
  | JArr xs => existsb toPrimitive_throws xs
  | _ => false
  end.

(** [xs.filter(f)] on a value that may be no array. *)
Fixpoint filter_elements (f : json -> completion bool) (xs : list json)
  : completion (list json) :=
  match xs with
  | [] => inr []
  | x :: xs' =>
      match f x with
      | inl e => inl e
      | inr keep =>
          match filter_elements f xs' with
          | inl e => inl e
          | inr kept => inr (if keep then x :: kept else kept)
          end
      end
  end.

Definition array_filter (f : json -> completion bool) (v : json)
  : completion (list json) :=
  match v with
  | JArr xs => filter_elements f xs
  | JNull => inl NullProperty
  | _ => inl NotAFunction
  end.

(** Code units that [.] does not match in a regular expression. *)
Definition is_line_terminator (c : N) : bool :=
  (c =? 10) || (c =? 13) || (c =? 8232) || (c =? 8233).

End Js.
Export Js.

(** ** [CodeExecutor] *)

Module Executor.

Record TestCase := {
  input : text;
  expectedOutput : text;
  explanation : text
}.

(** The two texts that the [catch] blocks build around the caught error,
    [Execution error: ${error}] and [Failed to parse results: ${error}]. *)
Inductive error_text :=
| ExecutionError (error : exn)
| FailedToParse (error : exn).

(** [results] holds what [JSON.parse] returned: the annotation
    [ExecutionResult[]] is not checked at run time. *)
Record JudgeResult := {
  success : bool;
  totalTests : nat;
  passedTests : nat;
  results : list json;
  overallError : option error_text
}.

(** *** The world outside the executor *)

Inductive lang := JavaScript | Python | Cpp.

(** What [writeFile] is given: the driver that [wrapJavaScriptCode],
    [wrapPythonCode] or [wrapCppCode] builds around the user code.  Its
    per-test step is modelled in [Harness]. *)
Record driver := Driver {
  driver_language : lang;
  userCode : text;
  driver_tests : list TestCase
}.

Inductive artifact :=
| SourceFile (d : driver)
| Executable (source : string).

Inductive event :=
| Mkdir (dir : string)
| WriteFile (path : string)
| Unlink (path : string)
| Spawn (command : string) (args : list string).

Record world := World {
  files : gmap string artifact;
  trace : list event
}.

(** What becomes of a spawned child: the [close] event with its exit code
    ([None] is [null], the child was killed by a signal, as the [timeout]
    option does) and what it wrote; the [error] event; or neither of the
    two.  The [timeout] option sends one SIGTERM and nothing else: a child
    that ignores the signal, or leaves a descendant that holds its streams
    open, never gives the [close] event. *)
Inductive outcome :=
| Closed (code : option Z) (stdout stderr : text)
| SpawnFailed (message : text)
| NeverEnds.

(** Everything one invocation observes from outside.  The answers are
    independent of one another, so the environments include some that no
    system gives (a directory that cannot be made and can be written
    into); the properties below hold in all of them, and none of them
    says that such an environment exists. *)
Record env := Env {
  tmpdir : string;
  now_source : N;           (* the first [Date.now()] *)
  now_executable : N;       (* the second one, in [executeCpp] *)
  mkdir_ok : bool;
  write_ok : string -> bool;
  unlink_ok : string -> bool;
  compiler : outcome;       (* of [g++] *)
  child : outcome           (* of the interpreter or the compiled program *)
}.

(** *** Computations over the world that return, throw or never settle *)

(** What keeps an [await] from returning: an exception, or the promise
    that it waits for never settles.  In the second case nothing after
    the [await] runs and no handler is entered. *)
Inductive fault :=
| Thrown (e : exn)
| Pending.

Definition M (A : Type) : Type := world -> (fault + A) * world.

Definition ret {A} (a : A) : M A := fun w => (inr a, w).
Definition throw {A} (e : exn) : M A := fun w => (inl (Thrown e), w).
Definition bind {A B} (m : M A) (k : A -> M B) : M B :=
  fun w => match m w with
           | (inr a, w') => k a w'
           | (inl e, w') => (inl e, w')
           end.
Definition try_catch {A} (m : M A) (handler : exn -> M A) : M A :=
  fun w => match m w with
           | (inl (Thrown e), w') => handler e w'
           | r => r
           end.
(** A call that returns or throws at once. *)
Definition lift {A} (c : completion A) : M A :=
  fun w => (match c with inl e => inl (Thrown e) | inr a => inr a end, w).
(** An [await] on a promise that settles as [r], if at all. *)
Definition await {A} (r : fault + A) : M A := fun w => (r, w).
Definition emit (ev : event) : M unit :=
  fun w => (inr tt, World (files w) (trace w ++ [ev])).

Definition modify (f : gmap string artifact -> gmap string artifact) : M unit :=
  fun w => (inr tt, World (f (files w)) (trace w)).
Definition exists_file (path : string) : M bool :=
  fun w => (inr (bool_decide (is_Some (files w !! path))), w).

#[global] Instance M_ret : MRet M := @ret.
#[global] Instance M_bind : MBind M := fun A B k m => bind m k.

(** *** File system and processes *)

Definition join (dir file : string) : string := dir +:+ "/" +:+ file.

Definition tempDir (E : env) : string := join (tmpdir E) "coding-judge".

Definition mkdir (E : env) (dir : string) : M unit :=
  emit (Mkdir dir);;
  if mkdir_ok E then ret tt else throw (SystemError (txt "mkdir")).

Definition writeFile (E : env) (path : string) (d : driver) : M unit :=
  emit (WriteFile path);;
  if write_ok E path
  then modify <[path := SourceFile d]>
  else throw (SystemError (txt "open")).

Definition unlink (E : env) (path : string) : M unit :=
  emit (Unlink path);;
  present ← exists_file path;
  if present && unlink_ok E path
  then modify (delete path)
  else throw (SystemError (txt "unlink")).

(** [`${code}`] for an exit code. *)
Definition show_code (code : option Z) : text :=
  match code with
  | Some c => txt (pretty c)
  | None => txt "null"
  end.

(** The handlers of [close] and [error] that the three runners share:
    exit code 0 resolves with the captured output, anything else rejects.
    Nothing else settles the promise: there is no timer of the runner's
    own. *)
Definition settle (o : outcome) : fault + text :=
  match o with
  | Closed (Some 0%Z) stdout _ => inr stdout
  | Closed code _ stderr =>
      inl (Thrown (Error (match stderr with
                          | [] => txt "Process exited with code " ++ show_code code
                          | _ => stderr
                          end)))
  | SpawnFailed message => inl (Thrown (SystemError message))
  | NeverEnds => inl Pending
  end.

Definition runNodeProcess (E : env) (filePath : string) : M text :=
  emit (Spawn "node" [filePath]);; await (settle (child E)).

Definition runPythonProcess (E : env) (filePath : string) : M text :=
  emit (Spawn "python" [filePath]);; await (settle (child E)).

Definition runCppProcess (E : env) (executablePath : string) : M text :=
  emit (Spawn executablePath []);; await (settle (child E)).

(** A compiler that exits with 0 has written the output file. *)
Definition compileCppCode (E : env) (sourceFile outputFile : string) : M unit :=
  emit (Spawn "g++" ["-o"; outputFile; sourceFile; "-std=c++17"]);;
  match compiler E with
  | Closed (Some 0%Z) _ _ => modify <[outputFile := Executable sourceFile]>
  | Closed code _ stderr =>
      throw (Error (txt "Compilation failed: " ++
                    match stderr with
                    | [] => txt "Process exited with code " ++ show_code code
                    | _ => stderr
                    end))
  | SpawnFailed message =>
      throw (Error (txt "Compilation error: " ++ message))
  | NeverEnds => await (inl Pending)
  end.

(** *** The result parser *)

Definition sentinel : text := txt "JUDGE_RESULT:".

(** [output.match(/JUDGE_RESULT:(.+)/)]: the leftmost place where the
    sentinel is followed by at least one character other than a line
    terminator; the group is the longest run of such characters. *)
Definition rest_of_line (s : text) : text :=
  fst (span (fun c => negb (is_line_terminator c)) s).

Fixpoint match_judge_result (output : text) : option text :=
  match output with
  | [] => None
  | _ :: rest =>
      match strip_prefix sentinel output with
      | Some after =>
          match rest_of_line after with
          | [] => match_judge_result rest
          | group => Some group
          end
      | None => match_judge_result rest
      end
  end.

Definition passed_of (r : json) : completion bool :=
  match getProp r (txt "passed") with
  | inl e => inl e
  | inr v => inr (truthy v)
  end.

(** The body of the [try] in [parseJudgeOutput]: the decoded array and
    the entries that pass. *)
Definition decode (output : text) : completion (list json * list json) :=
  match match_judge_result output with
  | None => inl (Error (txt "No judge result found in output"))
  | Some group =>
      match JSON_parse group with
      | None => inl (JsonSyntaxError group)
      | Some value =>
          match array_filter passed_of value with
          | inl e => inl e
          | inr kept =>
              inr (match value with JArr xs => xs | _ => [] end, kept)
          end
      end
  end.

Definition parseJudgeOutput (output : text) (testCases : list TestCase)
  : JudgeResult :=
  match decode output with
  | inr (results, kept) =>
      {| success := true;
         totalTests := length testCases;
         passedTests := length kept;
         results := results;
         overallError := None |}
  | inl error =>
      {| success := false;
         totalTests := length testCases;
         passedTests := 0;
         results := [];
         overallError := Some (FailedToParse error) |}
  end.

(** *** The three pipelines *)

Definition wrapJavaScriptCode (code : text) (testCases : list TestCase) : driver :=
  Driver JavaScript code testCases.
Definition wrapPythonCode (code : text) (testCases : list TestCase) : driver :=
  Driver Python code testCases.
Definition wrapCppCode (code : text) (testCases : list TestCase) : driver :=
  Driver Cpp code testCases.

(** The result that each [catch] block returns. *)
Definition execution_failed (testCases : list TestCase) (error : exn)
  : JudgeResult :=
  {| success := false;
     totalTests := length testCases;
     passedTests := 0;
     results := [];
     overallError := Some (ExecutionError error) |}.

Definition ensureTempDir (E : env) : M unit :=
  try_catch (mkdir E (tempDir E)) (fun _ => ret tt).

Definition solution (stamp : N) (extension : string) : string :=
  "solution_" +:+ pretty stamp +:+ extension.

Definition executeJavaScript (E : env) (code : text) (testCases : list TestCase)
  : M JudgeResult :=
  ensureTempDir E;;
  let fileName := solution (now_source E) ".js" in
  let filePath := join (tempDir E) fileName in
  try_catch
    (let wrappedCode := wrapJavaScriptCode code testCases in
     writeFile E filePath wrappedCode;;
     result ← runNodeProcess E filePath;
     unlink E filePath;;
     ret (parseJudgeOutput result testCases))
    (fun error => ret (execution_failed testCases error)).

Definition executePython (E : env) (code : text) (testCases : list TestCase)
  : M JudgeResult :=
  ensureTempDir E;;
  let fileName := solution (now_source E) ".py" in
  let filePath := join (tempDir E) fileName in
  try_catch
    (let wrappedCode := wrapPythonCode code testCases in
     writeFile E filePath wrappedCode;;
     result ← runPythonProcess E filePath;
     unlink E filePath;;
     ret (parseJudgeOutput result testCases))
    (fun error => ret (execution_failed testCases error)).

Definition executeCpp (E : env) (code : text) (testCases : list TestCase)
  : M JudgeResult :=
  ensureTempDir E;;
  let fileName := solution (now_source E) ".cpp" in
  let filePath := join (tempDir E) fileName in
  let executablePath := join (tempDir E) (solution (now_executable E) ".exe") in
  try_catch
    (let wrappedCode := wrapCppCode code testCases in
     writeFile E filePath wrappedCode;;
     compileCppCode E filePath executablePath;;
     result ← runCppProcess E executablePath;
     unlink E filePath;;
     try_catch (unlink E executablePath) (fun _ => ret tt);;
     ret (parseJudgeOutput result testCases))
    (fun error => ret (execution_failed testCases error)).

Definition execute (l : lang) : env -> text -> list TestCase -> M JudgeResult :=
  match l with
  | JavaScript => executeJavaScript
  | Python => executePython
  | Cpp => executeCpp
  end.

(** The artifacts that an invocation names. *)
Definition artifacts (l : lang) (E : env) : list string :=
  match l with
  | JavaScript => [join (tempDir E) (solution (now_source E) ".js")]
  | Python => [join (tempDir E) (solution (now_source E) ".py")]
  | Cpp => [join (tempDir E) (solution (now_source E) ".cpp");
            join (tempDir E) (solution (now_executable E) ".exe")]
  end.

End Executor.
Export Executor.

(** ** The drivers that [wrapJavaScriptCode] and [wrapPythonCode] generate *)

Module Harness.

(** One entry of the driver's [results] list.  [actualOutput] is [None]
    when the driver holds a value there that is no string.
    [executionTime], a difference of two clock readings, is left out. *)
Record ExecutionResult := {
  testCaseIndex : nat;
  passed : bool;
  actualOutput : option text;
  expected : text;             (* the key [expectedOutput] *)
  error : option text
}.

Definition not_found : text := txt "ERROR: Function not found or not implemented".

(** What a [throw] in user code leads to in the two handlers of a step.
    [Readable m]: the inner handler reads the message [m] of the thrown
    value.  [Unreadable outer]: reading it throws in turn, and the outer
    handler reads [outer], unless that throws as well ([None]). *)
Inductive raised :=
| Readable (message : text)
| Unreadable (outer : option text).

(** A call of a user function together with the conversion of its result
    to the text assigned to [actualOutput] ([None]: not a string).  This is
    what the call does to the step that makes it.  User code runs in the
    scope and in the process of the driver, where it can also reach the
    variables of the driver ([results], [testCases]), rebind names that
    the driver uses, or end the process; none of that is modelled, and
    the properties below are about one step, never about a whole run. *)
Inductive call :=
| Returns (output : option text)
| Raises (r : raised).

(** *** String operations shared by both drivers *)

Fixpoint indexOf (c : N) (s : text) : Z :=
  match s with
  | [] => (-1)%Z
  | d :: s' =>
      if c =? d then 0%Z
      else let i := indexOf c s' in if (i <? 0)%Z then (-1)%Z else (i + 1)%Z
  end.

Definition clamp (len i : Z) : nat := Z.to_nat (Z.min (Z.max i 0) len).

(** [s.substring(a, b)]: both ends are clamped, and swapped when [a > b]. *)
Definition substring (s : text) (a b : Z) : text :=
  let len := Z.of_nat (length s) in
  let a := clamp len a in
  let b := clamp len b in
  take (Nat.max a b - Nat.min a b) (drop (Nat.min a b) s).

(** [s[a:b]] for non-negative [a] and [b]: empty when [b <= a]. *)
Definition slice (s : text) (a b : Z) : text :=
  let len := Z.of_nat (length s) in
  take (clamp len b - clamp len a) (drop (clamp len a) s).

(** [s.split(c)] for a one-character separator. *)
Fixpoint split (c : N) (s : text) : list text :=
  match s with
  | [] => [[]]
  | d :: s' =>
      if c =? d then [] :: split c s'
      else match split c s' with
           | part :: parts => (d :: part) :: parts
           | [] => [[d]]
           end
  end.

Definition strip_with (space : N -> bool) (s : text) : text :=
  rev (snd (span space (rev (snd (span space s))))).

(** The group of the pattern that both drivers search for (a double
    quote, the longest run of other characters, a double quote) at its
    first match: the text between the first two double quotes. *)
Definition quoted (s : text) : option text :=
  match snd (span (fun c => negb (c =? 34)) s) with
  | _ :: after =>
      match span (fun c => negb (c =? 34)) after with
      | (group, _ :: _) => Some group
      | (_, []) => None
      end
  | [] => None
  end.

(** *** The JavaScript driver *)

Module JavaScript.

(** The texts of the two engine-made errors that a step can catch.  The
    built-ins that the step calls ([JSON.parse], [parseInt], the methods
    of strings) are taken to be the engine's own, whose errors carry a
    message that can always be read. *)
Record engine := {
  syntax_error_message : text -> text;   (* of [JSON.parse(source)] *)
  null_index_message : text              (* of indexing [null] *)
}.

(** The user code, as the driver sees it: which of the four names are
    functions ([typeof f === 'function']), and what a call does.  A
    number argument is given as the text that the driver hands to
    [parseInt], which never throws. *)
Record program := {
  twoSum : option (json -> text -> call);
  maxSubArray : option (json -> call);
  isValid : option (text -> call);
  climbStairs : option (text -> call)
}.

(** White space and line terminators, which [trim] removes. *)
Definition is_space (c : N) : bool :=
  ((9 <=? c) && (c <=? 13)) || (c =? 32) || (c =? 160) || (c =? 5760)
  || ((8192 <=? c) && (c <=? 8202)) || (c =? 8232) || (c =? 8233)
  || (c =? 8239) || (c =? 8287) || (c =? 12288) || (c =? 65279).

Definition trim : text -> text := strip_with is_space.

Inductive arguments :=
| ArrayAndTarget (nums : json) (target : text)
| Quoted (str : text)
| Integer (num : text)
| Nothing.              (* fewer than two parts: no branch is taken *)

(** The parsing that each branch does before it looks for a function. *)
Definition parse_input (G : engine) (input : text) : text + arguments :=
  if includes (ch "[") input && includes (ch ",") input then
    let parts := split (ch ",") input in
    if (2 <=? length parts)%nat then
      let arrayPart :=
        substring input (indexOf (ch "[") input) (indexOf (ch "]") input + 1) in
      match JSON_parse arrayPart with
      | None => inl (syntax_error_message G arrayPart)
      | Some nums => inr (ArrayAndTarget nums (trim (List.last parts [])))
      end
    else inr Nothing
  else if includes 34 input then
    match quoted input with
    | None => inl (null_index_message G)
    | Some str => inr (Quoted str)
    end
  else inr (Integer input).

(** The function that a branch calls, if one is defined. *)
Definition dispatch (P : program) (a : arguments) : option call :=
  match a with
  | ArrayAndTarget nums target =>
      match twoSum P, maxSubArray P with
      | Some f, _ => Some (f nums target)
      | None, Some g => Some (g nums)
      | None, None => None
      end
  | Quoted str => (fun f => f str) <$> isValid P
  | Integer num => (fun f => f num) <$> climbStairs P
  | Nothing => None
  end.

(** The inner [try] block: the value of [actualOutput] at its end, or
    what was thrown. *)
Definition attempt (G : engine) (P : program) (input : text)
  : raised + option text :=
  match parse_input G input with
  | inl message => inl (Readable message)
  | inr a =>
      match dispatch P a with
      | Some (Returns output) => inr output
      | Some (Raises r) => inl r
      | None => inr (Some not_found)
      end
  end.

(** [actualOutput === testCase.expectedOutput] *)
Definition strict_equal (actualOutput : option text) (expectedOutput : text) : bool :=
  match actualOutput with
  | Some s => text_eqb s expectedOutput
  | None => false
  end.

(** The body of the [forEach] callback: the entry it pushes, or [None]
    when an exception leaves it. *)
Definition step (G : engine) (P : program) (index : nat) (testCase : TestCase)
  : option ExecutionResult :=
  let finish actualOutput :=
    Some {| testCaseIndex := index;
            passed := strict_equal actualOutput (expectedOutput testCase);
            actualOutput := actualOutput;
            expected := expectedOutput testCase;
            error := None |} in
  match attempt G P (input testCase) with
  | inr actualOutput => finish actualOutput
  | inl (Readable message) => finish (Some (txt "ERROR: " ++ message))
  | inl (Unreadable (Some message)) =>
      Some {| testCaseIndex := index;
              passed := false;
              actualOutput := Some (txt "ERROR: " ++ message);
              expected := expectedOutput testCase;
              error := Some message |}
  | inl (Unreadable None) => None
  end.

End JavaScript.

(** *** The Python driver *)

Module Python.

(** What the names that a step uses are bound to when it runs: user
    code shares the module of the driver and can rebind them.
    [json_loads] and [int] return a value or raise; a raised exception is
    named by the text that the built-in [str] gives for it.  [str] is what
    the call [str(e)] of the two handlers comes to for that exception:
    with the built-in [str] the inner handler reads the text; with a [str]
    that user code has rebound, the call can raise in the inner handler,
    and in the outer one as well. *)
Record interpreter := {
  value : Type;
  json_loads : text -> text + value;
  int : text -> text + value;
  substring_not_found : text;           (* of [str.index] *)
  str : text -> raised
}.

(** [str] is the built-in one. *)
Definition builtin_str (I : interpreter) : Prop :=
  forall message, str I message = Readable message.

(** The user code: which of the four names are in [globals()], and what
    a call followed by [json.dumps], [str] or [str(...).lower()] does;
    these conversions return a string. *)
Record program (I : interpreter) := {
  two_sum : option (value I -> value I -> call);
  max_sub_array : option (value I -> call);
  is_valid : option (text -> call);
  climb_stairs : option (value I -> call)
}.
Arguments two_sum {I}.
Arguments max_sub_array {I}.
Arguments is_valid {I}.
Arguments climb_stairs {I}.

(** Characters for which [str.isspace] holds; [strip] removes them. *)
Definition is_space (c : N) : bool :=
  ((9 <=? c) && (c <=? 13)) || ((28 <=? c) && (c <=? 32)) || (c =? 133)
  || (c =? 160) || (c =? 5760) || ((8192 <=? c) && (c <=? 8202))
  || (c =? 8232) || (c =? 8233) || (c =? 8239) || (c =? 8287)
  || (c =? 12288).

Definition strip : text -> text := strip_with is_space.

(** [s.index(c)] *)
Definition index (I : interpreter) (c : N) (s : text) : text + Z :=
  let i := indexOf c s in
  if (i <? 0)%Z then inl (substring_not_found I) else inr i.

Inductive arguments (I : interpreter) :=
| ArrayAndTarget (nums target : value I)
| Quoted (s : text)
| Integer (num : value I)
| Nothing.       (* fewer than two parts, or no quoted text *)
Arguments ArrayAndTarget {I}.
Arguments Quoted {I}.
Arguments Integer {I}.
Arguments Nothing {I}.

Definition parse_input (I : interpreter) (input_str : text)
  : text + arguments I :=
  if includes (ch "[") input_str && includes (ch ",") input_str then
    let parts := split (ch ",") input_str in
    if (2 <=? length parts)%nat then
      match index I (ch "[") input_str with
      | inl m => inl m
      | inr a =>
          match index I (ch "]") input_str with
          | inl m => inl m
          | inr b =>
              match json_loads I (slice input_str a (b + 1)) with
              | inl m => inl m
              | inr nums =>
                  match int I (strip (List.last parts [])) with
                  | inl m => inl m
                  | inr target => inr (ArrayAndTarget nums target)
                  end
              end
          end
      end
    else inr Nothing
  else if includes 34 input_str then
    match quoted input_str with
    | Some s => inr (Quoted s)
    | None => inr Nothing
    end
  else
    match int I input_str with
    | inl m => inl m
    | inr num => inr (Integer num)
    end.

Definition dispatch {I} (P : program I) (a : arguments I) : option call :=
  match a with
  | ArrayAndTarget nums target =>
      match two_sum P, max_sub_array P with
      | Some f, _ => Some (f nums target)
      | None, Some g => Some (g nums)
      | None, None => None
      end
  | Quoted s => (fun f => f s) <$> is_valid P
  | Integer num => (fun f => f num) <$> climb_stairs P
  | Nothing => None
  end.

(** The inner [try]: [actual_output] at its end ([None] is Python's
    [None]), or what was raised. *)
Definition attempt {I} (P : program I) (input_str : text)
  : raised + option text :=
  match parse_input I input_str with
  | inl message => inl (str I message)
  | inr a =>
      match dispatch P a with
      | Some (Returns output) => inr output
      | Some (Raises r) => inl r
      | None => inr None
      end
  end.

(** [actual_output or 'None'] *)
Definition or_None (actual_output : option text) : text :=
  match actual_output with
  | Some (c :: s) => c :: s
  | Some [] | None => txt "None"
  end.

(** [actual_output == test_case['expectedOutput']] *)
Definition equal (actual_output : option text) (expectedOutput : text) : bool :=
  match actual_output with
  | Some s => text_eqb s expectedOutput
  | None => false
  end.

(** The body of the [for] loop: the entry it appends, or [None] when an
    exception leaves it. *)
Definition step {I} (P : program I) (index : nat) (test_case : TestCase)
  : option ExecutionResult :=
  let finish actual_output :=
    Some {| testCaseIndex := index;
            passed := equal actual_output (expectedOutput test_case);
            actualOutput := Some (or_None actual_output);
            expected := expectedOutput test_case;
            error := None |} in
  match attempt P (input test_case) with
  | inr actual_output => finish actual_output
  | inl (Readable message) => finish (Some (txt "ERROR: " ++ message))
  | inl (Unreadable (Some message)) =>
      Some {| testCaseIndex := index;
              passed := false;
              actualOutput := Some (txt "ERROR");
              expected := expectedOutput test_case;
              error := Some message |}
  | inl (Unreadable None) => None
  end.

End Python.

End Harness.

(** ** The request handler [judgeSubmission] *)

Module Judge.

(** The request body.  A field that the client left out is [None]. *)
Record SubmissionRequest := {
  questionId : option number;
  code : option text;
  language : option text
}.

(** What the question catalog returns, as far as the judge reads it. *)
Record Question := { testCases : option (list TestCase) }.

Inductive verdict := Accepted | WrongAnswer.

(** The body of the 200 response.  [accuracy], [executionTime] and
    [timestamp] are numbers and a date whose values no property below
    depends on; of [executionTime] only the fact that computing it can
    throw is modelled ([total_execution_time]). *)
Record report := {
  status : verdict;
  report_totalTests : nat;
  report_passedTests : nat;
  report_results : list json;
  report_success : bool;
  report_error : option error_text
}.

Inductive response :=
| Failure (http : N) (error : string)     (* [res.status(http).json({error})] *)
| InternalError (details : exn)           (* the 500 of the outer [catch] *)
| Report (body : report).                 (* [res.json({status, ...})] *)

Definition falsy_number (n : option number) : bool :=
  match n with None => true | Some n => number_is_zero n end.

Definition falsy_text (s : option text) : bool :=
  match s with None | Some [] => true | Some (_ :: _) => false end.

(** [results.reduce((sum, r) => sum + r.executionTime, 0)]: the addition
    converts its right operand to a primitive, which can throw. *)
Fixpoint total_execution_time (results : list json) : completion unit :=
  match results with
  | [] => inr tt
  | r :: rest =>
      match getProp r (txt "executionTime") with
      | inl e => inl e
      | inr None => total_execution_time rest
      | inr (Some t) =>
          if toPrimitive_throws t then inl NotPrimitive
          else total_execution_time rest
      end
  end.

(** [judgeResult.passedTests === judgeResult.totalTests ? 'Accepted' :
    'Wrong Answer'] *)
Definition verdict_of (judgeResult : JudgeResult) : verdict :=
  if Nat.eqb (passedTests judgeResult) (totalTests judgeResult)
  then Accepted else WrongAnswer.

(** What follows the [switch]: the status, then the response body, whose
    construction evaluates the sum of the execution times. *)
Definition respond (judgeResult : JudgeResult) : M response :=
  let status := verdict_of judgeResult in
  lift (total_execution_time (results judgeResult));;
  mret (Report {| status := status;
                  report_totalTests := totalTests judgeResult;
                  report_passedTests := passedTests judgeResult;
                  report_results := results judgeResult;
                  report_success := success judgeResult;
                  report_error := overallError judgeResult |}).

Section Handler.

(** [questionService.getQuestionById], which belongs to the question
    catalog. *)
Variable getQuestionById : number -> completion (option Question).

Definition judgeSubmission (E : env) (body : SubmissionRequest) : M response :=
  try_catch
    (if falsy_number (questionId body) || falsy_text (code body)
        || falsy_text (language body)
     then mret (Failure 400 "Missing required fields: questionId, code, language")
     else
       match questionId body, code body, language body with
       | Some id, Some code, Some language =>
           question ← lift (getQuestionById id);
           match question with
           | None => mret (Failure 404 "Question not found")
           | Some question =>
               match testCases question with
               | None | Some [] =>
                   mret (Failure 400 "No test cases available for this question")
               | Some testCases =>
                   if text_eqb language (txt "javascript") then
                     judgeResult ← executeJavaScript E code testCases;
                     respond judgeResult
                   else if text_eqb language (txt "python") then
                     judgeResult ← executePython E code testCases;
                     respond judgeResult
                   else if text_eqb language (txt "cpp") then
                     judgeResult ← executeCpp E code testCases;
                     respond judgeResult
                   else if text_eqb language (txt "java") then
                     mret (Failure 501 "Java execution not yet implemented")
                   else mret (Failure 400 "Unsupported language")
               end
           end
       | _, _, _ =>
           mret (Failure 400 "Missing required fields: questionId, code, language")
       end)
    (fun error => mret (InternalError error)).

End Handler.

(** The status that a response reports, if it reports one. *)
Definition reported_status (r : response) : option verdict :=
  match r with Report body => Some (status body) | _ => None end.

End Judge.
Export Judge.

(** ** Vocabulary of the properties *)

Module Spec.

(** An entry counts as passed when its [passed] member is truthy; for a
    boolean member that is when it is [true]. *)
Definition passes (r : json) : bool :=
  match passed_of r with inr b => b | inl _ => false end.

(** The text after the sentinel decodes to an array without [null]
    entries. *)
Definition well_formed (group : text) : Prop :=
  exists xs, JSON_parse group = Some (JArr xs) /\ Forall (fun r => r <> JNull) xs.

(** The lines of a text, and the lines that begin with the sentinel. *)
Definition lines (s : text) : list text := Harness.split 10 s.

Definition begins_with_sentinel (line : text) : bool :=
  bool_decide (is_Some (strip_prefix sentinel line)).

(** The [testCaseIndex] member of a decoded entry, when it is a
    non-negative integer literal. *)
Definition index_of (r : json) : option N :=
  match r with
  | JObj ms =>
      match own (txt "testCaseIndex") ms with
      | Some (JNum (Number false m 0%Z)) => Some m
      | _ => None
      end
  | _ => None
  end.

(** The result that an invocation returns, if it returns one. *)
Definition judged (l : lang) (E : env) (code : text)
  (testCases : list TestCase) (w : world) : fault + JudgeResult :=
  fst (execute l E code testCases w).

(** The files left when an invocation is over. *)
Definition left_behind (l : lang) (E : env) (code : text)
  (testCases : list TestCase) (w : world) : gmap string artifact :=
  files (snd (execute l E code testCases w)).



(** Two invocations read the same clock value for artifacts of the same
    kind. *)
Definition collide (l1 : lang) (E1 : env) (l2 : lang) (E2 : env) : Prop :=
  (l1 = l2 /\ now_source E1 = now_source E2)
  \/ (l1 = Cpp /\ l2 = Cpp /\ now_executable E1 = now_executable E2).

(** The name of a language in a request. *)
Definition language_name (l : lang) : text :=
  match l with
  | JavaScript => txt "javascript"
  | Python => txt "python"
  | Cpp => txt "cpp"
  end.

End Spec.
Export Spec.

(** ** Fixtures *)

Module Fixtures.

Definition one_test : list TestCase :=
  [{| input := txt "5"; expectedOutput := txt "8"; explanation := [] |}].

Definition empty_world : world := World ∅ [].

(** An invocation at clock reading [stamp] in which every system call
    succeeds and the child ends as [o]. *)
Definition calm (stamp : N) (o : outcome) : env :=
  {| tmpdir := "/tmp";
     now_source := stamp;
     now_executable := stamp;
     mkdir_ok := true;
     write_ok := fun _ => true;
     unlink_ok := fun _ => true;
     compiler := Closed (Some 0%Z) [] [];
     child := o |}.

Definition prints (stdout : text) : outcome := Closed (Some 0%Z) stdout [].

Definition crashes : outcome := Closed (Some 1%Z) [] (txt "Error: boom").

Definition crashing_code : text := txt "throw new Error('boom');".

(** A child that the timeout kills. *)
Definition hangs : outcome := Closed None [] [].

Definition looping_code : text := txt "int main() { for (;;) {} }".


(** A result line that user code prints by itself before it leaves with
    exit code 0, so that the driver never runs. *)
Definition forged_line : text :=
  dq "JUDGE_RESULT:[{'testCaseIndex':3,'passed':true},{'testCaseIndex':3,'passed':true}]".

Definition forging_code : text :=
  txt "console.log('" ++ forged_line ++ txt "'); process.exit(0);".

(** The line that the JavaScript driver prints for [one_test] when the user
    code defines no function. *)
Definition honest_line : text :=
  dq "JUDGE_RESULT:[{'testCaseIndex':0,'passed':false,'actualOutput':'ERROR: Function not found or not implemented','expectedOutput':'8','executionTime':0}]".

(** A forged line with one passing entry whose [executionTime] is an
    object that has a member called [toString]. *)
Definition unsummable_line : text :=
  dq "JUDGE_RESULT:[{'passed':true,'executionTime':{'toString':1}}]".

Definition unsummable_code : text :=
  txt "console.log('" ++ unsummable_line ++ txt "'); process.exit(0);".

(** A catalog that knows every question, with the one test case, and a
    catalog that knows none. *)
Definition catalog : number -> completion (option Question) :=
  fun _ => inr (Some {| testCases := Some one_test |}).

Definition empty_catalog : number -> completion (option Question) :=
  fun _ => inr None.

Definition submission (language : string) (code : text) : SubmissionRequest :=
  {| questionId := Some (Number false 1 0);
     code := Some code;
     language := Some (txt language) |}.

(** The texts of V8 for the two errors: for the empty source, the only
    one that a fixture below fails to parse, and for indexing [null]. *)
Definition node : Harness.JavaScript.engine :=
  {| Harness.JavaScript.syntax_error_message :=
       fun _ => txt "Unexpected end of JSON input";
     Harness.JavaScript.null_index_message :=
       txt "Cannot read properties of null (reading '1')" |}.

(** User code that defines none of the four functions. *)
Definition nothing_defined : Harness.JavaScript.program :=
  {| Harness.JavaScript.twoSum := None;
     Harness.JavaScript.maxSubArray := None;
     Harness.JavaScript.isValid := None;
     Harness.JavaScript.climbStairs := None |}.

(** An interpreter whose library functions accept every text. *)
Definition lenient : Harness.Python.interpreter :=
  {| Harness.Python.value := unit;
     Harness.Python.json_loads := fun _ => inr tt;
     Harness.Python.int := fun _ => inr tt;
     Harness.Python.substring_not_found := txt "substring not found";
     Harness.Python.str := Harness.Readable |}.

(** An interpreter in which user code has bound [str] to something that
    raises, and whose [int] accepts digits only. *)
Definition rebound_str : Harness.Python.interpreter :=
  {| Harness.Python.value := unit;
     Harness.Python.json_loads := fun _ => inr tt;
     Harness.Python.int :=
       fun s => if forallb is_digit s && negb (bool_decide (s = []))
                then inr tt else inl (txt "invalid literal for int()");
     Harness.Python.substring_not_found := txt "substring not found";
     Harness.Python.str := fun _ => Harness.Unreadable None |}.

Definition nothing_bound_either : Harness.Python.program rebound_str :=
  {| Harness.Python.two_sum := None;
     Harness.Python.max_sub_array := None;
     Harness.Python.is_valid := None;
     Harness.Python.climb_stairs := None |}.

(** A test of the stairs problem whose input is no number. *)
Definition wordy_test : TestCase :=
  {| input := txt "five"; expectedOutput := txt "8"; explanation := [] |}.

Definition nothing_bound : Harness.Python.program lenient :=
  {| Harness.Python.two_sum := None;
     Harness.Python.max_sub_array := None;
     Harness.Python.is_valid := None;
     Harness.Python.climb_stairs := None |}.

(** A test of the string-validity problem, and one whose array has no
    closing bracket. *)
Definition brackets_test : TestCase :=
  {| input := dq "'()[]{}'"; expectedOutput := txt "true"; explanation := [] |}.

Definition open_array_test : TestCase :=
  {| input := txt "[2,7"; expectedOutput := txt "[0,1]"; explanation := [] |}.

End Fixtures.
Export Fixtures.

(** ** What one invocation does to the world *)

Module Observe.

Definition extension (l : lang) : string :=
  match l with JavaScript => ".js" | Python => ".py" | Cpp => ".cpp" end.

(** [filePath] and [executablePath] of an invocation. *)
Definition source_path (l : lang) (E : env) : string :=
  join (tempDir E) (solution (now_source E) (extension l)).

Definition executable_path (E : env) : string :=
  join (tempDir E) (solution (now_executable E) ".exe").

Definition exits_cleanly (o : outcome) : bool :=
  match o with Closed (Some 0%Z) _ _ => true | _ => false end.

(** The events that an invocation adds to the trace, and the processes
    among them. *)
Definition new_events (l : lang) (E : env) (code : text)
  (testCases : list TestCase) (w : world) : list event :=
  drop (length (trace w)) (trace (snd (execute l E code testCases w))).

Definition is_spawn (ev : event) : bool :=
  match ev with Spawn _ _ => true | _ => false end.

Definition spawned (l : lang) (E : env) (code : text)
  (testCases : list TestCase) (w : world) : list event :=
  List.filter is_spawn (new_events l E code testCases w).

(** The processes that an invocation is meant to start once its source
    file is written: the interpreter, or the compiler and then, if it
    exits with code 0, the program. *)
Definition stages (l : lang) (E : env) : list event :=
  match l with
  | JavaScript => [Spawn "node" [source_path l E]]
  | Python => [Spawn "python" [source_path l E]]
  | Cpp =>
      Spawn "g++" ["-o"; executable_path E; source_path l E; "-std=c++17"]
      :: (if exits_cleanly (compiler E) then [Spawn (executable_path E) []] else [])
  end.

(** The text under which a child that did not exit with code 0 is
    reported. *)
Definition diagnostic (code : option Z) (stderr : text) : text :=
  match stderr with
  | [] => txt "Process exited with code " ++ show_code code
  | _ => stderr
  end.

End Observe.
Export Observe.

(** ** More fixtures *)

Module Scenes.





End Scenes.
Export Scenes.

(** ** More vocabulary for the handler *)

Module Requests.

(** The languages that the [switch] knows. *)
Definition known_language (name : text) : bool :=
  text_eqb name (txt "javascript") || text_eqb name (txt "python")
  || text_eqb name (txt "cpp") || text_eqb name (txt "java").

(** The request passes the checks that precede the [switch]: the three
    fields are truthy, and the catalog has the question with these test
    cases, of which there is at least one. *)
Definition admitted (getQuestionById : number -> completion (option Question))
  (body : SubmissionRequest) (source name : text) (tests : list TestCase) : Prop :=
  exists id q,
    questionId body = Some id /\ number_is_zero id = false
    /\ code body = Some source /\ source <> []
    /\ language body = Some name /\ name <> []
    /\ getQuestionById id = inr (Some q)
    /\ testCases q = Some tests /\ tests <> [].

End Requests.
Export Requests.

(** ** The connection that [config/database.ts] keeps *)

Module Database.

(** The two module variables, and what has happened to the clients.  A
    client is named by its place in the order of construction, and a [Db]
    by the client that it was taken from. *)
Record store := {
  client : option nat;
  db : option nat;
  made : nat;              (* the clients constructed so far *)
  closed : list nat        (* the clients whose [close] has resolved *)
}.

Definition fresh : store :=
  {| client := None; db := None; made := 0; closed := [] |}.

(** Whether [connect] and [close] of a client resolve. *)
Record network := {
  connects : nat -> bool;
  closes : nat -> bool
}.

Inductive fault :=
| ConnectFailed (c : nat)     (* [client.connect()] rejected *)
| CloseFailed (c : nat)       (* [client.close()] rejected *)
| NoClient.                   (* [client] was [null] when [client.db] was read *)

(** [connectToDatabase] up to its [await]: the cached [Db] at once, or a
    new client that replaces the held one and whose [connect] is awaited. *)
Definition connect_begin (s : store) : nat + nat * store :=
  match db s with
  | Some d => inl d
  | None =>
      inr (made s,
           {| client := Some (made s); db := None;
              made := S (made s); closed := closed s |})
  end.

(** [connectToDatabase] after its [await] on the client [c]: the [Db] is
    taken from the client that the module holds then. *)
Definition connect_finish (N : network) (c : nat) (s : store)
  : (fault + nat) * store :=
  if connects N c then
    match client s with
    | Some held =>
        (inr held,
         {| client := client s; db := Some held;
            made := made s; closed := closed s |})
    | None => (inl NoClient, s)
    end
  else (inl (ConnectFailed c), s).

Definition connectToDatabase (N : network) (s : store) : (fault + nat) * store :=
  match connect_begin s with
  | inl d => (inr d, s)
  | inr (c, s') => connect_finish N c s'
  end.

(** [closeDatabaseConnection] up to its [await] (the client whose [close]
    is awaited, if one is held) and after it. *)
Definition close_begin (s : store) : option nat := client s.

Definition close_finish (N : network) (c : nat) (s : store)
  : (fault + unit) * store :=
  if closes N c then
    (inr tt,
     {| client := None; db := None; made := made s; closed := c :: closed s |})
  else (inl (CloseFailed c), s).

Definition closeDatabaseConnection (N : network) (s : store)
  : (fault + unit) * store :=
  match close_begin s with
  | Some c => close_finish N c s
  | None => (inr tt, s)
  end.

(** Calls made one after the other. *)
Inductive call := Connect | Close.

Definition after (N : network) (s : store) (c : call) : store :=
  match c with
  | Connect => snd (connectToDatabase N s)
  | Close => snd (closeDatabaseConnection N s)
  end.

(** The parts of calls, in any order in which the scheduler resumes
    them. *)
Inductive part :=
| ConnectBegins
| ConnectResumes (c : nat)
| CloseResumes (c : nat).

Definition resume (N : network) (s : store) (p : part) : store :=
  match p with
  | ConnectBegins =>
      match connect_begin s with inl _ => s | inr (_, s') => s' end
  | ConnectResumes c => snd (connect_finish N c s)
  | CloseResumes c => snd (close_finish N c s)
  end.

End Database.

(** ** The C++ driver *)

Module CppHarness.

(** The [main] that [wrapCppCode] writes beneath the user code.  A
    [std::string] is a sequence of bytes, held here as a [text] whose code
    units are the bytes; [size_t] is taken to be 64 bits wide and [int] to
    be 32.  The crashes and loops of the user code are outside the model:
    the runner sees them as the outcome of the child. *)

Definition npos : Z := (2 ^ 64 - 1)%Z.

(** Arithmetic on [size_t]. *)
Definition wrap (z : Z) : Z := (z mod 2 ^ 64)%Z.

(** [s.find(c, from)] *)
Definition find (c : N) (s : text) (from : Z) : Z :=
  if (Z.of_nat (length s) <=? from)%Z then npos
  else
    let i := Harness.indexOf c (drop (Z.to_nat from) s) in
    if (i <? 0)%Z then npos else (from + i)%Z.

(** [s.substr(pos, count)]; [None] stands for [std::out_of_range]. *)
Definition substr (s : text) (pos count : Z) : option text :=
  let size := Z.of_nat (length s) in
  if (size <? pos)%Z then None
  else Some (take (Z.to_nat (Z.min count (size - pos))) (drop (Z.to_nat pos) s)).

(** The items that [while (getline(ss, item, ','))] reads: the pieces
    between commas, without an empty piece at the end of the text. *)
Fixpoint items_from (item : text) (s : text) : list text :=
  match s with
  | [] => [rev item]
  | c :: s' =>
      if c =? ch "," then
        rev item :: match s' with [] => [] | _ => items_from [] s' end
      else items_from (c :: item) s'
  end.

Definition items (s : text) : list text :=
  match s with [] => [] | _ => items_from [] s end.

Definition isspace (c : N) : bool := (c =? 32) || ((9 <=? c) && (c <=? 13)).

(** [std::stoi(s)]: white space, an optional sign, decimal digits; what
    follows the digits is ignored.  [None] stands for
    [std::invalid_argument] (no digit) and [std::out_of_range] (no
    [int]). *)
Definition stoi (s : text) : option Z :=
  let s := snd (span isspace s) in
  let '(negative, s) :=
    match s with
    | c :: s' =>
        if c =? ch "-" then (true, s')
        else if c =? ch "+" then (false, s')
        else (false, s)
    | [] => (false, s)
    end in
  match fst (span is_digit s) with
  | [] => None
  | digits =>
      let magnitude := Z.of_N (decimal digits) in
      let value := if negative then (- magnitude)%Z else magnitude in
      if ((- 2 ^ 31 <=? value) && (value <? 2 ^ 31))%Z then Some value else None
  end.

(** [std::to_string] of an [int] or a [long long], and [cout << i]. *)
Definition to_string (z : Z) : text := txt (pretty z).

(** The user code: the four functions that [main] names.  All of them are
    there, or the compiler rejects the file.  [None]: the call throws. *)
Record program := {
  twoSum : list Z -> Z -> option (list Z);
  maxSubArray : list Z -> option Z;
  isValid : text -> option bool;
  climbStairs : Z -> option Z
}.

Inductive arguments :=
| ArrayAndTarget (nums : list Z) (target : Z)
| Array (nums : list Z)
| Quoted (str : text)
| Integer (num : Z).

(** What a branch builds before its call; [None]: [stoi] or [substr]
    throws, which only the outer handler catches. *)
Definition parse_input (input : text) : option arguments :=
  if negb (find (ch "[") input 0 =? npos)%Z && negb (find (ch ",") input 0 =? npos)%Z
  then
    let start_bracket := find (ch "[") input 0 in
    let end_bracket := find (ch "]") input 0 in
    array_str ← substr input (wrap (start_bracket + 1))
                       (wrap (end_bracket - start_bracket - 1));
    nums ← mapM stoi (items array_str);
    let comma_pos := find (ch ",") input end_bracket in
    if negb (comma_pos =? npos)%Z then
      rest ← substr input (wrap (comma_pos + 1)) npos;
      target ← stoi rest;
      Some (ArrayAndTarget nums target)
    else Some (Array nums)
  else if negb (find 34 input 0 =? npos)%Z then
    let start_quote := find 34 input 0 in
    let end_quote := find 34 input (wrap (start_quote + 1)) in
    Quoted <$> substr input (wrap (start_quote + 1))
                      (wrap (end_quote - start_quote - 1))
  else Integer <$> stoi input.

(** What a test leaves in [actualOutput].  [Undefined]: [main] reads
    [result[0]] or [result[1]] of a vector that is too short, for which
    the language defines no behaviour. *)
Inductive behaviour :=
| Output (actualOutput : text)
| Undefined.

(** The call of a branch and the text made of its result; [None]: the call
    throws, and the handler next to it catches that. *)
Definition call (P : program) (a : arguments) : option behaviour :=
  match a with
  | ArrayAndTarget nums target =>
      match twoSum P nums target with
      | None => None
      | Some (a :: b :: _) =>
          Some (Output (txt "[" ++ to_string a ++ txt "," ++ to_string b ++ txt "]"))
      | Some _ => Some Undefined
      end
  | Array nums => (fun result => Output (to_string result)) <$> maxSubArray P nums
  | Quoted str =>
      (fun result : bool => Output (if result then txt "true" else txt "false"))
        <$> isValid P str
  | Integer num => (fun result => Output (to_string result)) <$> climbStairs P num
  end.

Definition runtime_error : text := txt "ERROR: Runtime error".

(** The outer [try] block of the loop body together with its handler. *)
Definition attempt (P : program) (input : text) : behaviour :=
  match parse_input input with
  | None => Output runtime_error
  | Some a =>
      match call P a with
      | Some b => b
      | None => Output Harness.not_found
      end
  end.

(** The entry that the loop body writes for test [i]. *)
Definition entry (i : nat) (actualOutput expected : text) (duration : Z) : text :=
  dq "{'testCaseIndex':" ++ to_string (Z.of_nat i)
  ++ dq ",'passed':"
  ++ (if text_eqb actualOutput expected then txt "true" else txt "false")
  ++ dq ",'actualOutput':'" ++ actualOutput
  ++ dq "','expectedOutput':'" ++ expected
  ++ dq "','executionTime':" ++ to_string duration ++ txt "}".

(** What the user code writes to standard output itself: before [main]
    starts (the constructors of its global objects), and in each call,
    whether the call returns or throws.  There is one standard output, so
    what a call writes comes after the opening of the line, which [main]
    writes before its loop, and before the entry of the test. *)
Record chatter := {
  at_start : text;
  in_twoSum : list Z -> Z -> text;
  in_maxSubArray : list Z -> text;
  in_isValid : text -> text;
  in_climbStairs : Z -> text
}.

Definition said (C : chatter) (a : arguments) : text :=
  match a with
  | ArrayAndTarget nums target => in_twoSum C nums target
  | Array nums => in_maxSubArray C nums
  | Quoted str => in_isValid C str
  | Integer num => in_climbStairs C num
  end.

(** What the user code writes during a test: nothing when the input is
    not parsed, since no call is made then. *)
Definition heard (C : chatter) (input : text) : text :=
  match parse_input input with
  | Some a => said C a
  | None => []
  end.

(** What standard output receives from test [i] on: for each test what
    its call writes and then its entry, with a comma after each entry but
    the last.  [tests] pairs [testInputs[i]] with [expectedOutputs[i]],
    and [durations] gives the milliseconds that the clock shows for a
    test.  [None]: a test has no defined behaviour. *)
Fixpoint entries (P : program) (C : chatter) (durations : nat -> Z) (i : nat)
  (tests : list (text * text)) : option text :=
  match tests with
  | [] => Some []
  | (input, expected) :: tests' =>
      match attempt P input with
      | Undefined => None
      | Output actualOutput =>
          later ← entries P C durations (S i) tests';
          Some (heard C input
                ++ entry i actualOutput expected (durations i)
                ++ match tests' with [] => [] | _ => txt "," end
                ++ later)
      end
  end.

(** The standard output of the program. *)
Definition main (P : program) (C : chatter) (durations : nat -> Z)
  (tests : list (text * text)) : option text :=
  written ← entries P C durations 0 tests;
  Some (at_start C ++ txt "JUDGE_RESULT:[" ++ written ++ txt "]" ++ [10]).

(** *** What [parseJudgeOutput] makes of the line *)




End CppHarness.

(** ** Reading what the C++ driver writes *)

Module Reading.

(** The lexer and the parser of [JSON.parse], from any state. *)
Definition lex_from (st : option (lexmode * list token)) (s : text)
  : option (lexmode * list token) :=
  foldl (fun st c => st ≫= fun st => lex_step st c) st s.

Definition parse_from (st : option pstate) (ts : list token) : option pstate :=
  foldl (fun st t => st ≫= fun st => parse_step st t) st ts.

(** A row is the actual and the expected output of a test. *)
Definition row : Type := text * text.

(** The entries that [main] writes for the rows, from test [i] on. *)
Fixpoint written (durations : nat -> Z) (i : nat) (rows : list row) : text :=
  match rows with
  | [] => []
  | (a, e) :: rows' =>
      CppHarness.entry i a e (durations i)
      ++ match rows' with [] => [] | _ => txt "," end
      ++ written durations (S i) rows'
  end.











Definition tracing : CppHarness.chatter :=
  {| CppHarness.at_start := [];
     CppHarness.in_twoSum := fun _ _ => [];
     CppHarness.in_maxSubArray := fun _ => [];
     CppHarness.in_isValid := fun _ => [];
     CppHarness.in_climbStairs := fun _ => txt "debug" ++ [10] |}.

End Reading.
Export Reading.

(** ** The inputs that the C++ driver is written for *)

Module Inputs.

Definition is_int (z : Z) : Prop := (- 2 ^ 31 <= z < 2 ^ 31)%Z.

(** Numbers separated by commas. *)
Fixpoint csv (nums : list Z) : text :=
  match nums with
  | [] => []
  | [z] => CppHarness.to_string z
  | z :: rest => CppHarness.to_string z ++ ch "," :: csv rest
  end.

Definition is_blank (s : text) : Prop := Forall (fun c => CppHarness.isspace c = true) s.

End Inputs.
Export Inputs.

(** ** Proof automation for the pipelines *)

Ltac unfold_pipeline :=
  unfold judged, left_behind; cbn [execute];
  unfold executeJavaScript, executePython, executeCpp, ensureTempDir, mkdir,
    writeFile, unlink, runNodeProcess, runPythonProcess, runCppProcess,
    compileCppCode, exists_file, modify, emit, lift, await, throw,
    mbind, mret, M_bind, M_ret, bind, try_catch, ret.

Ltac split_pipeline :=
  repeat (cbn;
    match goal with
    | |- context [if ?b then _ else _] => destruct b eqn:?
    | |- context [settle ?o] => destruct (settle o) as [[?|]|?] eqn:?
    | |- context [match compiler ?E with _ => _ end] =>
        destruct (compiler E) as [[[| |]|] ? ?|?|] eqn:?
    end).

(** ** The JSON reader and the pattern on concrete texts *)

Example parse_entry :
  JSON_parse (dq " [ {'testCaseIndex':0,'passed':true,'executionTime':12} ] ")
  = Some (JArr [JObj [(txt "testCaseIndex", JNum (Number false 0 0));
                      (txt "passed", JBool true);
                      (txt "executionTime", JNum (Number false 12 0))]]).
Proof. vm_compute. reflexivity. Qed.

Example parse_escapes :
  JSON_parse (dq "['a\n\u0041\\', -1.50e+2, null, false]")
  = Some (JArr [JStr [97; 10; 65; 92]; JNum (Number true 150 0);
                JNull; JBool false]).
Proof. vm_compute. reflexivity. Qed.

Example parse_rejects :
  Forall (fun source => JSON_parse (dq source) = None)
    [""; "[1,]"; "{'a':1,}"; "01"; "1."; ".5"; "+1"; "[1 2]"; "{'a' 1}";
     "[}"; "tru"; "truefalse"; "'open"; "[1]]"; "1 2"; "{a:1}"; "undefined"].
Proof. repeat (constructor; [vm_compute; reflexivity|]). constructor. Qed.

Example last_member_wins :
  (fun v => getProp v (txt "passed")) <$> JSON_parse (dq "{'passed':false,'passed':1}")
  = Some (inr (Some (JNum (Number false 1 0)))).
Proof. vm_compute. reflexivity. Qed.

Example tiny_number_is_falsy :
  number_is_zero <$> parse_number (txt "1e-400") = Some true
  /\ number_is_zero <$> parse_number (txt "5e-324") = Some false
  /\ number_is_zero <$> parse_number (txt "-0.0") = Some true.
Proof. vm_compute. repeat split. Qed.

Example match_takes_first_usable_place :
  match_judge_result (txt "JUDGE_RESULT:
log JUDGE_RESULT:[1]
JUDGE_RESULT:[2]") = Some (txt "[1]").
Proof. vm_compute. reflexivity. Qed.

(** ** The result parser *)

Section ResultParser.

Lemma strip_prefix_Some p s r : strip_prefix p s = Some r <-> s = p ++ r.
Proof.
  revert s; induction p as [|a p IH]; intros [|b s]; cbn.
  - split; congruence.
  - split; congruence.
  - split; [discriminate | intros [=]].
  - destruct (N.eqb_spec a b) as [->|Hne].
    + rewrite IH. split; [intros ->; reflexivity | intros [=]; assumption].
    + split; [discriminate | intros [= Hab _]; destruct (Hne (eq_sym Hab))].
Qed.

Lemma strip_prefix_None p s :
  strip_prefix p s = None <-> forall r, s <> p ++ r.
Proof.
  split.
  - intros H r Hr. apply strip_prefix_Some in Hr. congruence.
  - intros H. destruct (strip_prefix p s) as [r|] eqn:Hs; [|reflexivity].
    apply strip_prefix_Some in Hs. destruct (H r Hs).
Qed.

(** Where the pattern matches: nowhere, when every occurrence of the
    sentinel is at the end of its line. *)
Lemma match_judge_result_None output :
  match_judge_result output = None <->
  forall pre after, output = pre ++ sentinel ++ after -> rest_of_line after = [].
Proof.
  induction output as [|c output IH].
  - cbn. split; [|reflexivity].
    intros _ pre after H. destruct pre; discriminate.
  - cbn [match_judge_result].
    destruct (strip_prefix sentinel (c :: output)) as [after|] eqn:Hs.
    + apply strip_prefix_Some in Hs.
      destruct (rest_of_line after) as [|g group] eqn:Hg.
      * rewrite IH. split.
        -- intros H [|d pre] after' Heq.
           ++ cbn [app] in Heq. rewrite Hs in Heq.
              apply app_inv_head in Heq. subst after'. exact Hg.
           ++ injection Heq as _ Heq. eapply H. exact Heq.
        -- intros H pre after' Heq. apply (H (c :: pre) after').
           cbn. rewrite Heq. reflexivity.
      * split; [discriminate|].
        intros H. specialize (H [] after Hs). congruence.
    + rewrite IH. split.
      * intros H [|d pre] after' Heq.
        -- cbn [app] in Heq.
           apply strip_prefix_Some in Heq. congruence.
        -- injection Heq as _ Heq. eapply H. exact Heq.
      * intros H pre after' Heq. apply (H (c :: pre) after').
        cbn. rewrite Heq. reflexivity.
Qed.

(** The match is the leftmost one, and its group runs to the end of the
    line. *)
Lemma match_judge_result_Some output group :
  match_judge_result output = Some group ->
  exists pre after,
    output = pre ++ sentinel ++ after /\ group = rest_of_line after /\
    group <> [] /\
    forall pre' after', output = pre' ++ sentinel ++ after' ->
      (length pre' < length pre)%nat -> rest_of_line after' = [].
Proof.
  induction output as [|c output IH]; [discriminate|].
  cbn [match_judge_result].
  assert (Hlater : match_judge_result output = Some group ->
    (forall after, c :: output = sentinel ++ after -> rest_of_line after = []) ->
    exists pre after,
      c :: output = pre ++ sentinel ++ after /\ group = rest_of_line after /\
      group <> [] /\
      forall pre' after', c :: output = pre' ++ sentinel ++ after' ->
        (length pre' < length pre)%nat -> rest_of_line after' = []).
  { intros H Hhere. destruct (IH H) as (pre & after & -> & -> & Hne & Hleft).
    exists (c :: pre), after. repeat split; [assumption|].
    intros [|d pre'] after' Heq Hlen.
    - apply Hhere. exact Heq.
    - injection Heq as _ Heq. apply (Hleft pre' after' Heq). cbn in Hlen. lia. }
  destruct (strip_prefix sentinel (c :: output)) as [after|] eqn:Hs.
  - apply strip_prefix_Some in Hs.
    destruct (rest_of_line after) as [|g rest] eqn:Hg.
    + intros H. apply Hlater; [exact H|].
      intros after' Heq. rewrite Hs in Heq. apply app_inv_head in Heq.
      subst after'. exact Hg.
    + intros [= <-]. exists [], after. cbn [app length].
      repeat split; [exact Hs | congruence | discriminate | intros; lia].
  - intros H. apply Hlater; [exact H|].
    intros after' Heq. apply strip_prefix_Some in Heq. congruence.
Qed.

Lemma filter_elements_passed xs kept :
  filter_elements passed_of xs = inr kept ->
  Forall (fun r => r <> JNull) xs /\ kept = List.filter passes xs.
Proof.
  revert kept; induction xs as [|x xs IH]; cbn; intros kept H.
  - injection H as <-. split; constructor.
  - unfold passes. destruct (passed_of x) as [e|b] eqn:Hx; [discriminate|].
    destruct (filter_elements passed_of xs) as [e|kept'] eqn:Hxs; [discriminate|].
    destruct (IH kept' eq_refl) as [Hall ->]. injection H as <-.
    split.
    + constructor; [|assumption]. intros ->. discriminate.
    + destruct b; reflexivity.
Qed.

Lemma filter_elements_total xs :
  Forall (fun r => r <> JNull) xs ->
  filter_elements passed_of xs = inr (List.filter passes xs).
Proof.
  induction 1 as [|x xs Hx _ IH]; cbn; [reflexivity|].
  unfold passes. destruct (passed_of x) as [e|b] eqn:Hp.
  - destruct x; cbn in Hp; try discriminate. contradiction.
  - rewrite IH. destruct b; reflexivity.
Qed.

(** When the [try] block of [parseJudgeOutput] completes. *)
Lemma decode_inr output rs kept :
  decode output = inr (rs, kept) <->
  exists group,
    match_judge_result output = Some group /\
    JSON_parse group = Some (JArr rs) /\
    Forall (fun r => r <> JNull) rs /\ kept = List.filter passes rs.
Proof.
  unfold decode. split.
  - destruct (match_judge_result output) as [group|]; [|discriminate].
    destruct (JSON_parse group) as [value|] eqn:Hv; [|discriminate].
    destruct value; cbn; try discriminate.
    destruct (filter_elements passed_of xs) as [e|kept'] eqn:Hf; [discriminate|].
    intros [= <- <-]. apply filter_elements_passed in Hf as [Hall ->].
    exists group. auto.
  - intros (group & -> & -> & Hall & ->). cbn.
    rewrite (filter_elements_total _ Hall). reflexivity.
Qed.

Lemma decode_inl output :
  (exists e, decode output = inl e) <->
  match_judge_result output = None \/
  exists group, match_judge_result output = Some group /\ ~ well_formed group.
Proof.
  split.
  - intros [e He].
    destruct (match_judge_result output) as [group|] eqn:Hm; [right|left; reflexivity].
    exists group. split; [reflexivity|]. intros (xs & Hp & Hall).
    assert (decode output = inr (xs, List.filter passes xs)) as Hd.
    { apply decode_inr. exists group. auto. }
    congruence.
  - intros H. destruct (decode output) as [e|[rs kept]] eqn:Hd; [eauto|].
    apply decode_inr in Hd as (group & Hm & Hp & Hall & _).
    destruct H as [H|(group' & Hm' & Hwf)]; [congruence|].
    destruct Hwf. exists rs. split; [congruence | assumption].
Qed.

Lemma parseJudgeOutput_success output tcs :
  success (parseJudgeOutput output tcs) = true <->
  exists rs kept, decode output = inr (rs, kept).
Proof.
  unfold parseJudgeOutput. destruct (decode output) as [e|[rs kept]]; cbn.
  - split; [discriminate | intros (? & ? & [=])].
  - split; eauto.
Qed.

Lemma parseJudgeOutput_failure output tcs :
  success (parseJudgeOutput output tcs) = false <-> exists e, decode output = inl e.
Proof.
  unfold parseJudgeOutput. destruct (decode output) as [e|[rs kept]]; cbn.
  - split; eauto.
  - split; [discriminate | intros (? & [=])].
Qed.

Lemma parseJudgeOutput_failed output tcs :
  success (parseJudgeOutput output tcs) = false ->
  passedTests (parseJudgeOutput output tcs) = 0%nat
  /\ results (parseJudgeOutput output tcs) = []
  /\ is_Some (overallError (parseJudgeOutput output tcs)).
Proof.
  unfold parseJudgeOutput. destruct (decode output) as [e|[rs kept]]; cbn.
  - eauto.
  - discriminate.
Qed.

End ResultParser.

(** C5, as the code has it.  The parser takes the first place in the output,
    wherever in a line it is, at which the sentinel is followed by at least
    one character other than a line terminator, and decodes the rest of that
    line.  It fails exactly when there is no such place or when that text is
    not a JSON array free of [null] entries, and a failure gives
    [success = false], no passed test, no result and an error text. *)
Theorem parse_failure_exact output tcs :
  let r := parseJudgeOutput output tcs in
  (success r = false <->
     match_judge_result output = None \/
     exists group, match_judge_result output = Some group /\ ~ well_formed group)
  /\ (success r = false ->
        passedTests r = 0%nat /\ results r = [] /\ is_Some (overallError r))
  /\ (forall group, match_judge_result output = Some group ->
        exists pre after,
          output = pre ++ sentinel ++ after /\ group = rest_of_line after /\
          group <> [] /\
          forall pre' after', output = pre' ++ sentinel ++ after' ->
            (length pre' < length pre)%nat -> rest_of_line after' = [])
  /\ (match_judge_result output = None <->
        forall pre after, output = pre ++ sentinel ++ after -> rest_of_line after = []).
Proof.
  cbn zeta. repeat split.
  - intros H. apply decode_inl, parseJudgeOutput_failure with (tcs := tcs), H.
  - intros H. eapply parseJudgeOutput_failure, decode_inl, H.
  - apply parseJudgeOutput_failed. assumption.
  - apply parseJudgeOutput_failed. assumption.
  - apply parseJudgeOutput_failed. assumption.
  - apply match_judge_result_Some.
  - apply match_judge_result_None.
  - apply match_judge_result_None.
Qed.

Lemma parse_failure_exact_witness :
  let r := parseJudgeOutput (txt "Segmentation fault") one_test in
  success r = false
  /\ passedTests r = 0%nat /\ results r = [] /\ is_Some (overallError r).
Proof.
  destruct (parse_failure_exact (txt "Segmentation fault") one_test)
    as (Hiff & Hfail & _).
  assert (Hs : success (parseJudgeOutput (txt "Segmentation fault") one_test)
               = false).
  { apply Hiff. left. vm_compute. reflexivity. }
  split; [exact Hs | exact (Hfail Hs)].
Defined.

(** C5 as stated fails: in this output no line begins with the sentinel, and
    the parser succeeds all the same. *)
Lemma sentinel_inside_a_line_is_accepted :
  let output := txt "debug JUDGE_RESULT:[]" in
  Forall (fun line => begins_with_sentinel line = false) (lines output)
  /\ success (parseJudgeOutput output one_test) = true.
Proof. vm_compute. split; [repeat constructor | reflexivity]. Qed.

(** ** The generated drivers *)

Section Drivers.

Import Harness.

(** With none of the four names defined, no branch finds a function. *)
Lemma JavaScript_nothing_to_call P a :
  JavaScript.twoSum P = None -> JavaScript.maxSubArray P = None ->
  JavaScript.isValid P = None -> JavaScript.climbStairs P = None ->
  JavaScript.dispatch P a = None.
Proof. intros H1 H2 H3 H4. destruct a; cbn; rewrite ?H1, ?H2, ?H3, ?H4; reflexivity. Qed.

Lemma Python_nothing_to_call I (P : Python.program I) a :
  Python.two_sum P = None -> Python.max_sub_array P = None ->
  Python.is_valid P = None -> Python.climb_stairs P = None ->
  Python.dispatch P a = None.
Proof. intros H1 H2 H3 H4. destruct a; cbn; rewrite ?H1, ?H2, ?H3, ?H4; reflexivity. Qed.

End Drivers.

(** ** The pipelines *)

Section Pipelines.

Lemma settle_inr o stdout :
  settle o = inr stdout <-> exists stderr, o = Closed (Some 0%Z) stdout stderr.
Proof.
  split.
  - destruct o as [[[| |]|] so se|m|]; cbn; intros H; try discriminate.
    injection H as ->. eauto.
  - intros [stderr ->]. reflexivity.
Qed.

(** What a pipeline returns comes from one of two places: a [catch]
    block, or the parser run on the output of a child that exited with
    code 0. *)
Lemma judged_cases l E code tcs w r :
  judged l E code tcs w = inr r ->
  (exists e, judged l E code tcs w = inr (execution_failed tcs e)) \/
  (exists stdout stderr,
     child E = Closed (Some 0%Z) stdout stderr /\
     judged l E code tcs w = inr (parseJudgeOutput stdout tcs)).
Proof.
  destruct l; unfold_pipeline; split_pipeline;
    try discriminate;
    try (intros _; left; eexists; reflexivity);
    match goal with
    | H : settle _ = inr _ |- _ => apply settle_inr in H as [? ->]
    end;
    intros _; right; eauto.
Qed.



Lemma parseJudgeOutput_totalTests stdout tcs :
  totalTests (parseJudgeOutput stdout tcs) = length tcs.
Proof. unfold parseJudgeOutput. destruct (decode stdout) as [?|[? ?]]; reflexivity. Qed.

Lemma parseJudgeOutput_passedTests stdout tcs :
  passedTests (parseJudgeOutput stdout tcs)
  = length (List.filter passes (results (parseJudgeOutput stdout tcs))).
Proof.
  unfold parseJudgeOutput. destruct (decode stdout) as [?|[rs kept]] eqn:Hd; cbn.
  - reflexivity.
  - apply decode_inr in Hd as (_ & _ & _ & _ & ->). reflexivity.
Qed.

Lemma filter_length_le (f : json -> bool) xs :
  (length (List.filter f xs) <= length xs)%nat.
Proof. induction xs as [|x xs IH]; cbn; [lia|]. destruct (f x); cbn; lia. Qed.


End Pipelines.

(** C2, as the code has it.  [totalTests] is the number of test cases and
    [passedTests] is the number of decoded entries whose [passed] member is
    truthy, so it lies between 0 and the number of decoded entries; it is at
    most [totalTests] when the child printed no more entries than there are
    test cases. *)
Theorem passed_count_bounds l E code tcs w r :
  judged l E code tcs w = inr r ->
  totalTests r = length tcs
  /\ passedTests r = length (List.filter passes (results r))
  /\ (0 <= passedTests r <= length (results r))%nat
  /\ ((length (results r) <= length tcs)%nat -> (passedTests r <= totalTests r)%nat).
Proof.
  intros Hr.
  assert (H : totalTests r = length tcs
              /\ passedTests r = length (List.filter passes (results r))).
  { destruct (judged_cases l E code tcs w r Hr) as [[e He]|(so & se & _ & Hp)].
    - assert (r = execution_failed tcs e) as -> by congruence. split; reflexivity.
    - assert (r = parseJudgeOutput so tcs) as -> by congruence.
      split; [apply parseJudgeOutput_totalTests | apply parseJudgeOutput_passedTests]. }
  destruct H as [Ht Hp]. rewrite Ht, Hp.
  pose proof (filter_length_le passes (results r)). repeat split; lia.
Qed.

Lemma passed_count_bounds_witness :
  exists r,
    judged JavaScript (calm 1700000000000 crashes) (txt "throw new Error('boom')")
      one_test empty_world = inr r
    /\ totalTests r = 1%nat /\ passedTests r = 0%nat.
Proof.
  eexists. split; [vm_compute; reflexivity|].
  destruct (passed_count_bounds JavaScript (calm 1700000000000 crashes)
              (txt "throw new Error('boom')") one_test empty_world _ eq_refl)
    as (Ht & Hp & _).
  split; [exact Ht | exact Hp].
Defined.

(** C2 as stated fails: with one test case, a child that prints two passing
    entries is judged to have passed two tests out of one. *)
Lemma forged_line_passes_more_than_total :
  exists r,
    judged JavaScript (calm 1700000000000 (prints forged_line)) forging_code
      one_test empty_world = inr r
    /\ success r = true /\ totalTests r = 1%nat /\ passedTests r = 2%nat.
Proof. eexists. vm_compute. repeat split. Qed.

(** C3.  A result with [success = false] has no entries and carries an error
    text. *)
Theorem failed_run_has_no_results l E code tcs w r :
  judged l E code tcs w = inr r ->
  success r = false ->
  results r = [] /\ is_Some (overallError r).
Proof.
  intros Hr Hs.
  destruct (judged_cases l E code tcs w r Hr) as [[e He]|(so & se & _ & Hp)].
  - assert (r = execution_failed tcs e) as -> by congruence. cbn. eauto.
  - assert (r = parseJudgeOutput so tcs) as -> by congruence.
    apply parseJudgeOutput_failed in Hs as (_ & ? & ?). auto.
Qed.

Lemma failed_run_has_no_results_witness :
  let r := execution_failed one_test
             (Error (txt "Error: boom")) in
  results r = [] /\ is_Some (overallError r).
Proof.
  exact (failed_run_has_no_results Python (calm 1700000000000 crashes)
           (txt "raise Exception('boom')") one_test empty_world _ eq_refl eq_refl).
Defined.

(** C4, as the code has it.  A result with [success = true] comes from a
    child that exited with code 0: its entries are the array, free of [null],
    that the text after the first sentinel match decodes to, and
    [totalTests] is the number of test cases.  How many entries there are and
    which [testCaseIndex] each carries is what the child printed; neither
    the parser nor the executor looks at either. *)
Theorem successful_run_returns_decoded_array l E code tcs w r :
  judged l E code tcs w = inr r ->
  success r = true ->
  exists stdout stderr group,
    child E = Closed (Some 0%Z) stdout stderr
    /\ match_judge_result stdout = Some group
    /\ JSON_parse group = Some (JArr (results r))
    /\ Forall (fun entry => entry <> JNull) (results r)
    /\ totalTests r = length tcs.
Proof.
  intros Hr Hs.
  destruct (judged_cases l E code tcs w r Hr) as [[e He]|(so & se & Hc & Hp)].
  - assert (r = execution_failed tcs e) as -> by congruence. discriminate.
  - assert (r = parseJudgeOutput so tcs) as -> by congruence.
    pose proof (parseJudgeOutput_totalTests so tcs) as Ht.
    unfold parseJudgeOutput in *.
    destruct (decode so) as [e|[rs kept]] eqn:Hd; [discriminate|].
    apply decode_inr in Hd as (group & Hm & Hj & Hall & _).
    exists so, se, group. cbn. auto.
Qed.

Lemma successful_run_returns_decoded_array_witness :
  let r := parseJudgeOutput honest_line one_test in
  exists group,
    match_judge_result honest_line = Some group
    /\ JSON_parse group = Some (JArr (results r))
    /\ Forall (fun entry => entry <> JNull) (results r)
    /\ totalTests r = 1%nat.
Proof.
  destruct (successful_run_returns_decoded_array JavaScript
              (calm 1700000000000 (prints honest_line)) (txt "// nothing")
              one_test empty_world _ eq_refl eq_refl)
    as (so & se & group & Hc & Hm & Hj & Hall & Ht).
  injection Hc as <- _. exists group. auto.
Defined.

(** C4 as stated fails: with one test case, the forged line gives a
    successful result of two entries, the first of which carries index 3. *)
Lemma forged_line_sets_length_and_indices :
  exists r first,
    judged JavaScript (calm 1700000000000 (prints forged_line)) forging_code
      one_test empty_world = inr r
    /\ success r = true /\ totalTests r = 1%nat /\ length (results r) = 2%nat
    /\ results r !! 0%nat = Some first /\ index_of first = Some 3.
Proof. do 2 eexists. vm_compute. repeat split. Qed.




(** ** Temporary artifacts *)

Section Artifacts.

Lemma lookup_after_delete (m : gmap string artifact) (p q : string) :
  m !! p = None -> delete q m !! p = None.
Proof. intros H. rewrite lookup_delete. case_decide; [reflexivity | exact H]. Qed.

(** The source file of a JavaScript or Python run is gone once the run
    gave a successful result: the deletion sits between the child and
    the parser. *)
Lemma source_deleted_on_success l E code tcs w r p :
  judged l E code tcs w = inr r -> success r = true ->
  head (artifacts l E) = Some p ->
  left_behind l E code tcs w !! p = None.
Proof.
  destruct l; cbn [artifacts head]; intros Hr Hs [= <-]; revert Hr;
    unfold_pipeline; split_pipeline; intros [= <-]; try discriminate;
    first [apply lookup_delete_eq
          | apply lookup_after_delete, lookup_delete_eq].
Qed.

Lemma to_list_append (a b : string) :
  list_ascii_of_string (a +:+ b)
  = list_ascii_of_string a ++ list_ascii_of_string b.
Proof.
  induction a as [|c a IH]; [reflexivity|].
  change (String c a +:+ b) with (String c (a +:+ b)).
  cbn [list_ascii_of_string]. rewrite IH. reflexivity.
Qed.

Lemma to_list_inj (a b : string) :
  list_ascii_of_string a = list_ascii_of_string b -> a = b.
Proof.
  intros H. rewrite <- (string_of_list_ascii_of_string a),
    <- (string_of_list_ascii_of_string b), H. reflexivity.
Qed.

(** File names are told apart by the clock reading and by the extension:
    the four extensions end in different characters. *)
Lemma solution_path_inj d t1 t2 e1 e2 :
  is_Some (last (list_ascii_of_string e1)) ->
  is_Some (last (list_ascii_of_string e2)) ->
  e1 = e2 \/ last (list_ascii_of_string e1) <> last (list_ascii_of_string e2) ->
  join d (solution t1 e1) = join d (solution t2 e2) ->
  t1 = t2 /\ e1 = e2.
Proof.
  intros [c Hc] [c2 Hc2] Hext Heq. unfold join, solution in Heq.
  repeat apply (inj (String.app _)) in Heq.
  destruct Hext as [<-|Hne].
  - split; [|reflexivity]. apply (inj pretty), to_list_inj.
    apply (f_equal list_ascii_of_string) in Heq.
    rewrite !to_list_append in Heq. apply app_inv_tail in Heq. exact Heq.
  - exfalso. apply (f_equal (fun s => last (list_ascii_of_string s))) in Heq.
    rewrite !to_list_append, !last_app, Hc, Hc2 in Heq.
    apply Hne. rewrite Hc, Hc2. exact Heq.
Qed.

(** When the child fails after the source file was written, no [unlink]
    is reached and the file stays. *)
Lemma source_left_on_child_failure l E code tcs w e p :
  head (artifacts l E) = Some p ->
  write_ok E p = true ->
  (l = Cpp -> exists stdout stderr, compiler E = Closed (Some 0%Z) stdout stderr) ->
  settle (child E) = inl e ->
  is_Some (left_behind l E code tcs w !! p).
Proof.
  destruct e as [e|]; destruct l; cbn [artifacts head]; intros [= <-] Hw Hc He;
    try (unfold_pipeline; rewrite Hw, He; split_pipeline; cbn;
         rewrite lookup_insert_eq; eauto; fail);
    destruct (Hc eq_refl) as (so & se & Hcomp);
    unfold_pipeline; rewrite Hw, He, Hcomp; split_pipeline; cbn;
      (rewrite lookup_insert_ne;
       [rewrite lookup_insert_eq; eauto
       | intros Heq; apply solution_path_inj in Heq as [_ [=]];
         [cbn; eauto | cbn; eauto | right; cbn; discriminate]]).
Qed.

Lemma artifacts_share_iff l1 l2 E1 E2 :
  tmpdir E1 = tmpdir E2 ->
  (exists p, p ∈ artifacts l1 E1 /\ p ∈ artifacts l2 E2) <-> collide l1 E1 l2 E2.
Proof.
  intros Hd. unfold collide, tempDir. split.
  - intros (p & H1 & H2).
    destruct l1, l2; cbn [artifacts] in H1, H2; unfold tempDir in H1, H2;
      rewrite Hd in H1;
      repeat match goal with
      | H : _ ∈ _ :: _ |- _ => apply elem_of_cons in H as [H|H]
      | H : _ ∈ [] |- _ => apply elem_of_nil in H; destruct H
      end;
      rewrite H1 in H2;
      (apply solution_path_inj in H2 as [Ht He];
       [|cbn; eauto | cbn; eauto
        | first [left; reflexivity | right; cbn; discriminate]]);
      try discriminate; auto.
  - intros [[<- Ht]|(-> & -> & Ht)].
    + destruct l1; cbn [artifacts]; unfold tempDir; rewrite Hd, Ht;
        eexists; split; apply list_elem_of_here.
    + cbn [artifacts]; unfold tempDir; rewrite Hd, Ht.
      eexists; split; apply list_elem_of_further, list_elem_of_here.
Qed.

End Artifacts.

(** C6 fails on the code.  A JavaScript submission that throws makes the
    child exit with code 1; the call returns through its [catch] block,
    which deletes nothing, and the generated source file is still there. *)
Theorem crashed_run_leaves_its_source :
  let E := calm 1700000000000 crashes in
  let path := "/tmp/coding-judge/solution_1700000000000.js" in
  judged JavaScript E crashing_code one_test empty_world
  = inr (execution_failed one_test (Error (txt "Error: boom")))
  /\ artifacts JavaScript E = [path]
  /\ files empty_world !! path = None
  /\ left_behind JavaScript E crashing_code one_test empty_world !! path
     = Some (SourceFile (wrapJavaScriptCode crashing_code one_test)).
Proof. vm_compute. repeat split. Qed.

(** C7, as the code has it.  The names are made from the clock reading
    alone.  Two invocations that use the same temporary directory name a
    common path exactly when they run the same language and read the same
    clock value for the source file, or are both C++ runs that read the same
    clock value for the executable; otherwise all their paths differ. *)
Theorem paths_differ_unless_clock_repeats l1 l2 E1 E2 :
  tmpdir E1 = tmpdir E2 ->
  (forall p, p ∈ artifacts l1 E1 -> p ∈ artifacts l2 E2 -> False)
  <-> ~ collide l1 E1 l2 E2.
Proof.
  intros Hd. rewrite <- (artifacts_share_iff l1 l2 E1 E2 Hd). split.
  - intros H (p & H1 & H2). exact (H p H1 H2).
  - intros H p H1 H2. apply H. eauto.
Qed.

Lemma paths_differ_unless_clock_repeats_witness :
  (forall p,
     p ∈ artifacts Cpp (calm 1700000000000 crashes) ->
     p ∈ artifacts Cpp (calm 1700000000001 crashes) -> False)
  <-> ~ collide Cpp (calm 1700000000000 crashes) Cpp (calm 1700000000001 crashes).
Proof.
  exact (paths_differ_unless_clock_repeats Cpp Cpp
           (calm 1700000000000 crashes) (calm 1700000000001 crashes) eq_refl).
Defined.

(** C7 as stated fails: two different C++ invocations that read the same
    clock value name the same source file and the same executable. *)
Lemma same_clock_reading_same_paths :
  let E1 := calm 1700000000000 (prints forged_line) in
  let E2 := calm 1700000000000 crashes in
  E1 <> E2
  /\ artifacts Cpp E1 = artifacts Cpp E2
  /\ artifacts Cpp E1 = ["/tmp/coding-judge/solution_1700000000000.cpp";
                        "/tmp/coding-judge/solution_1700000000000.exe"].
Proof.
  cbn zeta. split; [|split; vm_compute; reflexivity].
  intros H. apply (f_equal child) in H. discriminate.
Qed.

(** ** The orchestrator *)

Section Orchestrator.

Variable getQuestionById : number -> completion (option Question).


(** A failed run passed no test. *)
Lemma failed_run_passed_nothing l E code tcs w r :
  judged l E code tcs w = inr r -> success r = false ->
  passedTests r = 0%nat /\ totalTests r = length tcs.
Proof.
  intros Hr Hs.
  destruct (judged_cases l E code tcs w r Hr) as [[e He]|(so & se & _ & Hp)].
  - assert (r = execution_failed tcs e) as -> by congruence. split; reflexivity.
  - assert (r = parseJudgeOutput so tcs) as -> by congruence.
    split; [|apply parseJudgeOutput_totalTests].
    apply parseJudgeOutput_failed in Hs as [? _]. assumption.
Qed.

(** With at least one test case, a result in which every test passed is a
    successful one. *)
Lemma all_passed_is_success l E code tcs w r :
  tcs <> [] -> judged l E code tcs w = inr r ->
  passedTests r = totalTests r -> success r = true.
Proof.
  intros Hne Hr Hall. destruct (success r) eqn:Hs; [reflexivity|].
  destruct (failed_run_passed_nothing l E code tcs w r Hr Hs) as [Hp Ht].
  destruct tcs; [contradiction|]. cbn in Ht. lia.
Qed.

(** What the handler does with a submission that passes its checks and
    names one of the three languages: it runs the executor and reports. *)
Lemma judgeSubmission_dispatch E body w id source l q tcs :
  questionId body = Some id -> number_is_zero id = false ->
  code body = Some source -> source <> [] ->
  language body = Some (language_name l) ->
  getQuestionById id = inr (Some q) ->
  testCases q = Some tcs -> tcs <> [] ->
  judgeSubmission getQuestionById E body w
  = try_catch (judgeResult ← execute l E source tcs; respond judgeResult)
      (fun error => mret (InternalError error)) w.
Proof.
  intros Hid Hz Hc Hne Hl Hq Ht Hn.
  unfold judgeSubmission, try_catch. rewrite Hid, Hc, Hl. cbn [falsy_number].
  rewrite Hz.
  destruct source as [|c source]; [contradiction|].
  destruct tcs as [|tc tcs]; [contradiction|].
  destruct q as [tests]; cbn in Ht; subst tests.
  destruct l; cbn; unfold lift; rewrite Hq; cbn; reflexivity.
Qed.

Lemma respond_cases r w :
  match total_execution_time (results r) with
  | inr _ =>
      exists body, respond r w = (inr (Report body), w)
                   /\ status body = verdict_of r
  | inl e => respond r w = (inl (Thrown e), w)
  end.
Proof.
  unfold respond, lift, mbind, mret, M_bind, M_ret, bind, ret.
  destruct (total_execution_time (results r)) as [e|[]]; [reflexivity|].
  eexists. split; reflexivity.
Qed.

End Orchestrator.

(** C1, as the code has it.  For a submission that passes the checks of the
    handler, names one of the three languages and has at least one test
    case, the handler answers.  It reports [Accepted] exactly when the
    result of the executor has [passedTests = totalTests] and
    [success = true] and the execution times of the entries can be added
    up; when they cannot, it answers with the internal error (the 500 of
    the outer [catch], made of what the addition threw), which carries no
    status; in every other case it reports [WrongAnswer]. *)
Theorem accepted_iff_all_passed getQuestionById E body w id source l q tcs r :
  questionId body = Some id -> number_is_zero id = false ->
  code body = Some source -> source <> [] ->
  language body = Some (language_name l) ->
  getQuestionById id = inr (Some q) ->
  testCases q = Some tcs -> tcs <> [] ->
  judged l E source tcs w = inr r ->
  exists resp,
    fst (judgeSubmission getQuestionById E body w) = inr resp
    /\ (reported_status resp = Some Accepted <->
          passedTests r = totalTests r /\ success r = true
          /\ total_execution_time (results r) = inr tt)
    /\ (reported_status resp = Some WrongAnswer <->
          ~ (passedTests r = totalTests r /\ success r = true)
          /\ total_execution_time (results r) = inr tt)
    /\ (reported_status resp = None <->
          exists e, total_execution_time (results r) = inl e)
    /\ (forall e, total_execution_time (results r) = inl e <->
                  resp = InternalError e).
Proof.
  intros Hid Hz Hc Hne Hl Hq Ht Hn Hr.
  rewrite (judgeSubmission_dispatch getQuestionById E body w id source l q tcs)
    by assumption.
  unfold judged in Hr. unfold try_catch, mbind, M_bind, bind.
  destruct (execute l E source tcs w) as [[e|r'] w'] eqn:Hx; cbn in Hr;
    [discriminate|]. injection Hr as ->.
  pose proof (respond_cases r w') as Hresp.
  assert (Hv : verdict_of r = Accepted <-> passedTests r = totalTests r).
  { unfold verdict_of. destruct (Nat.eqb_spec (passedTests r) (totalTests r));
      split; congruence. }
  assert (Hall : passedTests r = totalTests r -> success r = true).
  { apply (all_passed_is_success l E source tcs w r Hn).
    unfold judged. rewrite Hx. reflexivity. }
  destruct (total_execution_time (results r)) as [e|[]] eqn:Ht'.
  - rewrite Hresp. cbn. eexists. split; [reflexivity|]. cbn.
    repeat split; try discriminate; try (intros (_ & _ & [=])); eauto;
      try (intros (_ & [=])); congruence.
  - destruct Hresp as (body' & -> & Hstatus). eexists. split; [reflexivity|].
    cbn. rewrite Hstatus. repeat split.
    + apply Hv. congruence.
    + apply Hall, Hv. congruence.
    + intros (Hp & _ & _). f_equal. apply Hv, Hp.
    + intros [Hp _]. apply Hv in Hp. congruence.
    + intros [Hnot _]. destruct (verdict_of r) eqn:Hvr; [|reflexivity].
      destruct Hnot. split; [apply Hv; reflexivity | apply Hall, Hv; reflexivity].
    + discriminate.
    + intros (e & [=]).
    + discriminate.
    + discriminate.
Qed.

Lemma accepted_iff_all_passed_witness :
  exists resp,
    fst (judgeSubmission catalog (calm 1700000000000 (prints forged_line))
           (submission "javascript" forging_code) empty_world) = inr resp
    /\ reported_status resp = Some WrongAnswer.
Proof.
  destruct (accepted_iff_all_passed catalog
              (calm 1700000000000 (prints forged_line))
              (submission "javascript" forging_code) empty_world
              (Number false 1 0) forging_code JavaScript
              {| testCases := Some one_test |} one_test
              (parseJudgeOutput forged_line one_test))
    as (resp & Hresp & _ & Hwrong & _);
    try reflexivity; try discriminate.
  exists resp. split; [exact Hresp|]. apply Hwrong.
  split; [|vm_compute; reflexivity].
  vm_compute. intros [[=] _].
Defined.

(** C1 as stated fails.  The forged line gives the executor a result with
    one test passed out of one and [success = true].  The handler computes
    [Accepted] and then, while it builds the response body, adds up the
    execution times: the addition has to convert the object under
    [executionTime] to a primitive, the own member [toString] of that object
    hides the inherited method and is no function, the inherited [valueOf]
    returns the object itself, and so the conversion throws a [TypeError].
    The outer [catch] answers with the internal error, which has no
    status. *)
Lemma all_passed_yet_no_status :
  let E := calm 1700000000000 (prints unsummable_line) in
  exists r,
    judged JavaScript E unsummable_code one_test empty_world = inr r
    /\ passedTests r = totalTests r /\ success r = true
    /\ fst (judgeSubmission catalog E (submission "javascript" unsummable_code)
              empty_world)
       = inr (InternalError NotPrimitive).
Proof. eexists. vm_compute. repeat split. Qed.

(** C10.  A submission that names java starts no execution stage: the
    handler leaves the world as it was, with no event and no file, and
    does not answer with a report.  At the dispatch, that is for a
    submission that has passed the checks in front of it (the three fields
    are there, the question exists and has a test case), the answer is the
    501 response, which differs from every answer given for a run. *)
Theorem java_is_never_run getQuestionById E body w :
  language body = Some (txt "java") ->
  snd (judgeSubmission getQuestionById E body w) = w
  /\ (exists resp,
        fst (judgeSubmission getQuestionById E body w) = inr resp
        /\ forall report, resp <> Report report)
  /\ (forall id source q tcs,
        questionId body = Some id -> number_is_zero id = false ->
        code body = Some source -> source <> [] ->
        getQuestionById id = inr (Some q) ->
        testCases q = Some tcs -> tcs <> [] ->
        fst (judgeSubmission getQuestionById E body w)
        = inr (Failure 501 "Java execution not yet implemented")).
Proof.
  intros Hl.
  assert (Hshape : forall c : (fault + response) * world,
            c.2 = w -> (exists resp, c.1 = inr resp /\ forall b, resp <> Report b) ->
            (c.1 = inr (Failure 501 "Java execution not yet implemented") \/
             forall id source q tcs,
               questionId body = Some id -> number_is_zero id = false ->
               code body = Some source -> source <> [] ->
               getQuestionById id = inr (Some q) ->
               testCases q = Some tcs -> tcs <> [] -> False) ->
            c.2 = w
            /\ (exists resp, c.1 = inr resp /\ forall b, resp <> Report b)
            /\ (forall id source q tcs,
                  questionId body = Some id -> number_is_zero id = false ->
                  code body = Some source -> source <> [] ->
                  getQuestionById id = inr (Some q) ->
                  testCases q = Some tcs -> tcs <> [] ->
                  c.1 = inr (Failure 501 "Java execution not yet implemented"))).
  { intros c Hw Hresp [H501|Habsurd]; repeat split; try assumption.
    - intros. assumption.
    - intros id source q tcs ? ? ? ? ? ? ?.
      destruct (Habsurd id source q tcs); assumption. }
  apply Hshape; unfold judgeSubmission, try_catch, lift, mbind, M_bind, bind;
    rewrite Hl; clear Hshape.
  - destruct (questionId body) as [id|]; cbn; [|reflexivity].
    destruct (number_is_zero id); cbn; [reflexivity|].
    destruct (code body) as [[|c source]|]; cbn; try reflexivity.
    destruct (getQuestionById id) as [e|[[[[|tc tcs]|]]|]]; reflexivity.
  - destruct (questionId body) as [id|]; cbn;
      [|eexists; split; [reflexivity|discriminate]].
    destruct (number_is_zero id); cbn;
      [eexists; split; [reflexivity|discriminate]|].
    destruct (code body) as [[|c source]|]; cbn;
      try (eexists; split; [reflexivity|discriminate]).
    destruct (getQuestionById id) as [e|[[[[|tc tcs]|]]|]]; cbn;
      eexists; (split; [reflexivity|discriminate]).
  - destruct (questionId body) as [id|] eqn:Hid; cbn;
      [|right; intros ? ? ? ? [=]].
    destruct (number_is_zero id) eqn:Hz; cbn;
      [right; intros ? ? ? ? [= <-]; congruence|].
    destruct (code body) as [[|c source]|] eqn:Hc; cbn;
      [right; intros ? ? ? ? _ _ [= <-] Hne; destruct (Hne eq_refl)
      | |right; intros ? ? ? ? _ _ [=]].
    destruct (getQuestionById id) as [e|[[[[|tc tcs]|]]|]] eqn:Hq; cbn;
      try (left; reflexivity);
      right; intros ? ? q' tcs' [= <-] _ _ _ Hq' Ht' Hne'; rewrite Hq in Hq';
      try discriminate; injection Hq' as <-; cbn in Ht'; try discriminate.
    injection Ht' as <-. destruct (Hne' eq_refl).
Qed.

Lemma java_is_never_run_witness :
  snd (judgeSubmission catalog (calm 1700000000000 crashes)
         (submission "java" (txt "class Solution {}")) empty_world)
  = empty_world
  /\ fst (judgeSubmission catalog (calm 1700000000000 crashes)
            (submission "java" (txt "class Solution {}")) empty_world)
     = inr (Failure 501 "Java execution not yet implemented").
Proof.
  destruct (java_is_never_run catalog (calm 1700000000000 crashes)
              (submission "java" (txt "class Solution {}")) empty_world eq_refl)
    as (Hw & _ & H501).
  split; [exact Hw|].
  apply (H501 (Number false 1 0) (txt "class Solution {}")
              {| testCases := Some one_test |} one_test);
    solve [reflexivity | discriminate].
Defined.

(** The checks in front of the dispatch do not look at the language: a
    java submission for a question that the catalog does not know never
    reaches the dispatch and is answered with 404, like any other. *)
Lemma java_for_unknown_question :
  fst (judgeSubmission empty_catalog (calm 1700000000000 crashes)
         (submission "java" (txt "class Solution {}")) empty_world)
  = inr (Failure 404 "Question not found").
Proof. vm_compute. reflexivity. Qed.

(** ** The per-test step of the drivers *)

(** C9, as the code has it.  While the names that a step uses mean what
    they meant when the driver was written, a step whose input cannot be
    parsed, or whose input is parsed and finds no function to call, pushes
    one entry and lets no exception out.  When parsing fails, [actualOutput]
    is the text ERROR: followed by the message of the exception, and
    [passed] is its equality with the expected output.  When the JavaScript
    driver finds no function, [actualOutput] is the not-found text and
    [passed] is its equality with the expected output; when the Python
    driver finds none, [passed] is false.  User code shares the scope of
    the driver: once it has rebound [str] in the Python driver to something
    that raises, a failure to parse raises in the inner handler and again
    in the outer one, and the exception leaves the loop. *)
Theorem step_without_a_call
  (G : Harness.JavaScript.engine) (P : Harness.JavaScript.program)
  (I : Harness.Python.interpreter) (Q : Harness.Python.program I)
  (index : nat) (tc : TestCase) :
  (forall m, Harness.JavaScript.parse_input G (input tc) = inl m ->
     Harness.JavaScript.step G P index tc
     = Some {| Harness.testCaseIndex := index;
               Harness.passed := text_eqb (txt "ERROR: " ++ m) (expectedOutput tc);
               Harness.actualOutput := Some (txt "ERROR: " ++ m);
               Harness.expected := expectedOutput tc;
               Harness.error := None |})
  /\ (forall a, Harness.JavaScript.parse_input G (input tc) = inr a ->
        Harness.JavaScript.dispatch P a = None ->
        Harness.JavaScript.step G P index tc
        = Some {| Harness.testCaseIndex := index;
                  Harness.passed := text_eqb Harness.not_found (expectedOutput tc);
                  Harness.actualOutput := Some Harness.not_found;
                  Harness.expected := expectedOutput tc;
                  Harness.error := None |})
  /\ (forall m, Harness.Python.parse_input I (input tc) = inl m ->
        Harness.Python.builtin_str I ->
        Harness.Python.step Q index tc
        = Some {| Harness.testCaseIndex := index;
                  Harness.passed := text_eqb (txt "ERROR: " ++ m) (expectedOutput tc);
                  Harness.actualOutput := Some (txt "ERROR: " ++ m);
                  Harness.expected := expectedOutput tc;
                  Harness.error := None |})
  /\ (forall m, Harness.Python.parse_input I (input tc) = inl m ->
        (Harness.Python.step Q index tc = None
         <-> Harness.Python.str I m = Harness.Unreadable None))
  /\ (forall a, Harness.Python.parse_input I (input tc) = inr a ->
        Harness.Python.dispatch Q a = None ->
        exists r, Harness.Python.step Q index tc = Some r
                  /\ Harness.testCaseIndex r = index
                  /\ Harness.passed r = false
                  /\ Harness.expected r = expectedOutput tc
                  /\ Harness.error r = None).
Proof.
  split; [|split; [|split; [|split]]].
  - intros m Hm. unfold Harness.JavaScript.step, Harness.JavaScript.attempt.
    rewrite Hm. reflexivity.
  - intros a Ha Hd. unfold Harness.JavaScript.step, Harness.JavaScript.attempt.
    rewrite Ha, Hd. reflexivity.
  - intros m Hm Hstr. unfold Harness.Python.step, Harness.Python.attempt.
    rewrite Hm, Hstr. reflexivity.
  - intros m Hm. unfold Harness.Python.step, Harness.Python.attempt.
    rewrite Hm. destruct (Harness.Python.str I m) as [m'|[m'|]];
      split; congruence.
  - intros a Ha Hd. unfold Harness.Python.step, Harness.Python.attempt.
    rewrite Ha, Hd. eexists. repeat split.
Qed.

Lemma step_without_a_call_witness :
  Harness.JavaScript.step node nothing_defined 0 open_array_test
  = Some {| Harness.testCaseIndex := 0;
            Harness.passed := false;
            Harness.actualOutput := Some (txt "ERROR: Unexpected end of JSON input");
            Harness.expected := txt "[0,1]";
            Harness.error := None |}
  /\ Harness.JavaScript.step node nothing_defined 1 brackets_test
     = Some {| Harness.testCaseIndex := 1;
               Harness.passed := false;
               Harness.actualOutput := Some Harness.not_found;
               Harness.expected := txt "true";
               Harness.error := None |}.
Proof.
  destruct (step_without_a_call node nothing_defined lenient nothing_bound
              0 open_array_test) as (Hfail & _).
  destruct (step_without_a_call node nothing_defined lenient nothing_bound
              1 brackets_test) as (_ & Hnone & _).
  split.
  - exact (Hfail (txt "Unexpected end of JSON input") eq_refl).
  - exact (Hnone (Harness.JavaScript.Quoted (txt "()[]{}")) eq_refl eq_refl).
Defined.

(** With [str] rebound, the step of the Python driver lets the exception
    out: the input of the test is no number, [int] raises, and both
    handlers raise in turn. *)
Example a_rebound_str_lets_the_exception_out :
  Harness.Python.parse_input rebound_str (input wordy_test)
  = inl (txt "invalid literal for int()")
  /\ Harness.Python.step nothing_bound_either 0 wordy_test = None.
Proof. vm_compute. split; reflexivity. Qed.

(** C9 as stated fails.  In the JavaScript driver an input that cannot be
    parsed gives the message of the exception, not the not-found text; in
    the Python driver a step that finds no function gives the text None. *)
Lemma no_call_without_the_not_found_text :
  (exists r,
     Harness.JavaScript.parse_input node (input open_array_test)
     = inl (txt "Unexpected end of JSON input")
     /\ Harness.JavaScript.step node nothing_defined 0 open_array_test = Some r
     /\ Harness.actualOutput r = Some (txt "ERROR: Unexpected end of JSON input")
     /\ Harness.actualOutput r <> Some Harness.not_found)
  /\ (exists r,
        Harness.Python.dispatch nothing_bound (Harness.Python.Quoted (txt "()[]{}"))
        = None
        /\ Harness.Python.step nothing_bound 0 brackets_test = Some r
        /\ Harness.actualOutput r = Some (txt "None")
        /\ Harness.actualOutput r <> Some Harness.not_found).
Proof. split; eexists; vm_compute; repeat split; discriminate. Qed.

(** ** More on the pipelines *)

(** X2.  The processes of an invocation: none when the source file could not be
    written; otherwise the interpreter, once, or the compiler followed by
    the compiled program, which is started only after a compiler that
    exited with code 0. *)
Theorem processes_of_an_invocation l E code tcs w :
  spawned l E code tcs w
  = if write_ok E (source_path l E) then stages l E else [].
Proof.
  unfold spawned, new_events, stages, source_path, executable_path.
  destruct l; unfold_pipeline; cbn [extension]; split_pipeline; cbn;
    rewrite <- ?app_assoc, drop_app_length;
    first [reflexivity | cbn in *; discriminate].
Qed.

(** Closes the goals about the files that are left once every choice of
    the environment has been split. *)
Ltac settle_files :=
  repeat match goal with
  | H : _ && _ = true |- _ => apply andb_true_iff in H as [? ?]
  | H : _ && _ = false |- _ => apply andb_false_iff in H as [H|H]
  | H : bool_decide _ = true |- _ => apply bool_decide_eq_true in H
  | H : bool_decide _ = false |- _ => apply bool_decide_eq_false in H
  end;
  try congruence;
  try (exfalso;
       match goal with
       | H : ~ is_Some _ |- _ => apply H; simplify_map_eq; eauto
       end);
  repeat split; simplify_map_eq; eauto.

Section MorePipelines.

Lemma exits_cleanly_true o :
  exits_cleanly o = true <-> exists stdout stderr, o = Closed (Some 0%Z) stdout stderr.
Proof.
  split.
  - destruct o as [[[| |]|] so se|m|]; cbn; try discriminate. eauto.
  - intros (so & se & ->). reflexivity.
Qed.

Lemma settle_failed code stdout stderr :
  code <> Some 0%Z ->
  settle (Closed code stdout stderr)
  = inl (Thrown (Error (diagnostic code stderr))).
Proof. destruct code as [[| |]|]; intros H; [congruence | reflexivity..]. Qed.

Lemma executable_is_not_the_source E :
  executable_path E <> source_path Cpp E.
Proof.
  unfold executable_path, source_path. cbn [extension]. intros H.
  apply solution_path_inj in H as [_ [=]];
    [cbn; eauto | cbn; eauto | right; cbn; discriminate].
Qed.

End MorePipelines.

(** X3.  What the compiler wrote to its error stream reaches the caller: a
    compiler that does not exit with code 0 gives the failure result whose
    error is [Compilation failed:] followed by that text (or by the exit code
    when the stream is empty), and a compiler that cannot be started gives
    [Compilation error:] followed by the message of the system. *)
Theorem compiler_diagnostics_are_reported E code tcs w :
  write_ok E (source_path Cpp E) = true ->
  (forall c stdout stderr,
     compiler E = Closed c stdout stderr -> c <> Some 0%Z ->
     judged Cpp E code tcs w
     = inr (execution_failed tcs
              (Error (txt "Compilation failed: " ++ diagnostic c stderr))))
  /\ (forall message,
        compiler E = SpawnFailed message ->
        judged Cpp E code tcs w
        = inr (execution_failed tcs
                 (Error (txt "Compilation error: " ++ message)))).
Proof.
  unfold source_path. cbn [extension]. intros Hw. split.
  - intros c so se Hc Hne. unfold_pipeline. rewrite Hw, Hc.
    destruct c as [[| |]|]; try congruence; split_pipeline; reflexivity.
  - intros m Hc. unfold_pipeline. rewrite Hw, Hc. split_pipeline; reflexivity.
Qed.

Lemma compiler_diagnostics_are_reported_witness :
  judged Cpp (Env "/tmp" 7 7 true (fun _ => true) (fun _ => true)
                  (Closed (Some 1%Z) [] (txt "error: expected ';'")) hangs)
    looping_code one_test empty_world
  = inr (execution_failed one_test
           (Error (txt "Compilation failed: error: expected ';'"))).
Proof.
  destruct (compiler_diagnostics_are_reported
              (Env "/tmp" 7 7 true (fun _ => true) (fun _ => true)
                   (Closed (Some 1%Z) [] (txt "error: expected ';'")) hangs)
              looping_code one_test empty_world eq_refl) as [H _].
  apply (H (Some 1%Z) [] (txt "error: expected ';'") eq_refl). discriminate.
Defined.

(** X4.  A child that does not exit with code 0 gets no credit for what it
    printed: whatever its output, a complete result line included, the
    result is the failure result whose error is its error stream (or its
    exit code when the stream is empty). *)
Theorem crash_discards_the_output l E code tcs w c stdout stderr :
  write_ok E (source_path l E) = true ->
  (l = Cpp -> exits_cleanly (compiler E) = true) ->
  child E = Closed c stdout stderr -> c <> Some 0%Z ->
  judged l E code tcs w
  = inr (execution_failed tcs (Error (diagnostic c stderr))).
Proof.
  unfold source_path. intros Hw Hcomp Hc Hne.
  pose proof (settle_failed c stdout stderr Hne) as Hs. rewrite <- Hc in Hs.
  destruct l; cbn [extension] in Hw.
  - unfold_pipeline. rewrite Hw, Hs. split_pipeline; reflexivity.
  - unfold_pipeline. rewrite Hw, Hs. split_pipeline; reflexivity.
  - apply exits_cleanly_true in Hcomp as (so & se & Hcomp); [|reflexivity].
    unfold_pipeline. rewrite Hw, Hs, Hcomp. split_pipeline; reflexivity.
Qed.

Lemma crash_discards_the_output_witness :
  judged Python (calm 7 (Closed None forged_line [])) forging_code one_test
    empty_world
  = inr (execution_failed one_test
           (Error (txt "Process exited with code null"))).
Proof.
  apply (crash_discards_the_output Python (calm 7 (Closed None forged_line []))
           forging_code one_test empty_world None forged_line []);
    solve [reflexivity | discriminate].
Defined.





(** X7.  A call that returns a successful result has deleted its source file,
    and its executable too unless the system refused that deletion. *)
Theorem success_leaves_no_source l E code tcs w r :
  judged l E code tcs w = inr r ->
  success r = true ->
  left_behind l E code tcs w !! source_path l E = None
  /\ (l = Cpp -> unlink_ok E (executable_path E) = true ->
      left_behind l E code tcs w !! executable_path E = None).
Proof.
  intros Hr Hs. pose proof (executable_is_not_the_source E) as Hne.
  unfold executable_path, source_path in *. revert Hr.
  destruct l; cbn [extension] in *; unfold_pipeline; split_pipeline;
    intros [= <-]; try discriminate; cbn; settle_files; congruence.
Qed.

Lemma success_leaves_no_source_witness :
  left_behind Python (calm 7 (prints honest_line)) (txt "# nothing") one_test
    empty_world
  !! source_path Python (calm 7 (prints honest_line)) = None.
Proof.
  exact (proj1 (success_leaves_no_source Python (calm 7 (prints honest_line))
                  (txt "# nothing") one_test empty_world _ eq_refl eq_refl)).
Defined.



(** ** More on the result parser *)

Section FirstLine.

Lemma strip_prefix_app p s r x :
  strip_prefix p s = Some r -> strip_prefix p (s ++ x) = Some (r ++ x).
Proof. rewrite !strip_prefix_Some. intros ->. rewrite app_assoc. reflexivity. Qed.

Lemma strip_prefix_stopped p s lt rest :
  Forall (fun c => is_line_terminator c = false) p ->
  is_line_terminator lt = true ->
  strip_prefix p s = None -> strip_prefix p (s ++ lt :: rest) = None.
Proof.
  intros Hp Hlt. revert s. induction Hp as [|a p Ha _ IH]; intros s; [discriminate|].
  destruct s as [|b s]; cbn.
  - intros _. destruct (N.eqb_spec a lt) as [->|_]; [congruence | reflexivity].
  - destruct (a =? b); [apply IH | reflexivity].
Qed.

Lemma rest_of_line_stopped a lt rest :
  is_line_terminator lt = true ->
  rest_of_line (a ++ lt :: rest) = rest_of_line a.
Proof.
  intros Hlt. unfold rest_of_line. induction a as [|c a IH]; cbn.
  - rewrite Hlt. reflexivity.
  - destruct (is_line_terminator c); cbn; [reflexivity|].
    destruct (span _ (a ++ lt :: rest)) as [x y], (span _ a) as [x' y'].
    cbn in *. congruence.
Qed.

Lemma match_judge_result_stopped output lt rest group :
  is_line_terminator lt = true ->
  match_judge_result output = Some group ->
  match_judge_result (output ++ lt :: rest) = Some group.
Proof.
  intros Hlt. induction output as [|c output IH]; [discriminate|].
  cbn [match_judge_result app].
  change (c :: output ++ lt :: rest) with ((c :: output) ++ lt :: rest).
  destruct (strip_prefix sentinel (c :: output)) as [after|] eqn:Hs.
  - rewrite (strip_prefix_app _ _ _ (lt :: rest) Hs),
      (rest_of_line_stopped after lt rest Hlt).
    destruct (rest_of_line after); [exact IH | trivial].
  - rewrite (strip_prefix_stopped sentinel (c :: output) lt rest); [exact IH| |exact Hlt|exact Hs].
    vm_compute. repeat constructor.
Qed.

End FirstLine.

(** X9.  Once the output holds a result line, nothing that is printed after the
    end of a line changes the result: the first line that the pattern
    matches is the only one that is read. *)
Theorem later_output_is_ignored output lt rest tcs group :
  match_judge_result output = Some group ->
  is_line_terminator lt = true ->
  parseJudgeOutput (output ++ lt :: rest) tcs = parseJudgeOutput output tcs.
Proof.
  intros Hm Hlt. unfold parseJudgeOutput, decode.
  rewrite (match_judge_result_stopped output lt rest group Hlt Hm), Hm.
  reflexivity.
Qed.

Lemma later_output_is_ignored_witness :
  parseJudgeOutput (forged_line ++ 10 :: honest_line) one_test
  = parseJudgeOutput forged_line one_test.
Proof.
  apply (later_output_is_ignored forged_line 10 honest_line one_test
           (Harness.substring forged_line 13 1000));
    vm_compute; reflexivity.
Defined.

(** ** More on the orchestrator *)

Section MoreOrchestrator.

Variable getQuestionById : number -> completion (option Question).

(** The handler, for a request that passes the checks before the
    [switch]. *)
Lemma judgeSubmission_admitted E body w source name tests :
  admitted getQuestionById body source name tests ->
  judgeSubmission getQuestionById E body w
  = try_catch
      (if text_eqb name (txt "javascript") then
         judgeResult ← executeJavaScript E source tests; respond judgeResult
       else if text_eqb name (txt "python") then
         judgeResult ← executePython E source tests; respond judgeResult
       else if text_eqb name (txt "cpp") then
         judgeResult ← executeCpp E source tests; respond judgeResult
       else if text_eqb name (txt "java") then
         mret (Failure 501 "Java execution not yet implemented")
       else mret (Failure 400 "Unsupported language"))
      (fun error => mret (InternalError error)) w.
Proof.
  intros (id & q & Hid & Hz & Hc & Hne & Hl & Hnn & Hq & Ht & Hn).
  unfold judgeSubmission, try_catch. rewrite Hid, Hc, Hl. cbn [falsy_number].
  rewrite Hz.
  destruct source as [|c source]; [contradiction|].
  destruct name as [|c' name]; [contradiction|].
  destruct tests as [|tc tests]; [contradiction|].
  destruct q as [qt]; cbn in Ht; subst qt.
  cbn. unfold lift, mbind, M_bind, bind. rewrite Hq. cbn. reflexivity.
Qed.

End MoreOrchestrator.

(** X10.  A request that the handler rejects (400, 404 or 501) has touched
    nothing: no directory, no file, no process. *)
Theorem rejections_touch_nothing getQuestionById E body w http message :
  fst (judgeSubmission getQuestionById E body w) = inr (Failure http message) ->
  snd (judgeSubmission getQuestionById E body w) = w.
Proof.
  unfold judgeSubmission, try_catch, lift, mbind, M_bind, bind.
  destruct (questionId body) as [id|]; cbn; [|reflexivity].
  destruct (number_is_zero id); cbn; [reflexivity|].
  destruct (code body) as [[|c source]|]; cbn; try reflexivity.
  destruct (language body) as [[|c' name]|]; cbn; try reflexivity.
  destruct (getQuestionById id) as [e|[[[[|tc tcs]|]]|]]; cbn; try reflexivity.
  set (tests := tc :: tcs). set (src := c :: source).
  assert (Hrun : forall (m : M JudgeResult),
            fst (match
                   match m w with
                   | (inr a, w') => respond a w'
                   | (inl e, w') => (inl e, w')
                   end
                 with
                 | (inl (Thrown e), w') => mret (M := M) (InternalError e) w'
                 | r => r
                 end) <> inr (Failure http message)).
  { intros m. destruct (m w) as [[[e|]|r] w']; cbn; [discriminate..|].
    pose proof (respond_cases r w') as H.
    destruct (total_execution_time (results r)) as [e|[]].
    - rewrite H. cbn. discriminate.
    - destruct H as (b & -> & _). cbn. discriminate. }
  repeat match goal with
  | |- context [if ?b then _ else _] => destruct b
  end; try reflexivity; intros H; exfalso; revert H;
    (apply (Hrun (executeJavaScript E src tests))
     || apply (Hrun (executePython E src tests))
     || apply (Hrun (executeCpp E src tests))).
Qed.

Lemma rejections_touch_nothing_witness :
  snd (judgeSubmission empty_catalog (calm 7 crashes)
         (submission "python" crashing_code) empty_world) = empty_world.
Proof.
  exact (rejections_touch_nothing empty_catalog (calm 7 crashes)
           (submission "python" crashing_code) empty_world
           404 "Question not found" eq_refl).
Defined.

(** X11.  A request that passes every check and names a language other than the
    four of the [switch] is answered with 400 and the unsupported-language
    text. *)
Theorem unknown_language_is_rejected getQuestionById E body w source name tests :
  admitted getQuestionById body source name tests ->
  known_language name = false ->
  judgeSubmission getQuestionById E body w
  = (inr (Failure 400 "Unsupported language"), w).
Proof.
  intros Ha Hk. rewrite (judgeSubmission_admitted _ E body w source name tests Ha).
  unfold known_language in Hk.
  apply orb_false_elim in Hk as [Hk H4]. apply orb_false_elim in Hk as [Hk H3].
  apply orb_false_elim in Hk as [H1 H2].
  rewrite H1, H2, H3, H4. reflexivity.
Qed.

Lemma unknown_language_is_rejected_witness :
  judgeSubmission catalog (calm 7 crashes) (submission "rust" (txt "fn main() {}"))
    empty_world
  = (inr (Failure 400 "Unsupported language"), empty_world).
Proof.
  apply (unknown_language_is_rejected catalog (calm 7 crashes)
           (submission "rust" (txt "fn main() {}")) empty_world
           (txt "fn main() {}") (txt "rust") one_test); [|reflexivity].
  exists (Number false 1 0), {| testCases := Some one_test |}.
  repeat split; discriminate.
Defined.

(** X12.  A run that failed is reported with the same status as a wrong answer.
    For a request that passes every check and names one of the three
    languages, a result with [success = false] is answered with a report
    whose status is [WrongAnswer]; what tells it from a wrong answer is that
    the report has [success = false], an error text, no entry and no passed
    test. *)
Theorem failed_run_is_reported_as_wrong_answer
  getQuestionById E body w source l tests r :
  admitted getQuestionById body source (language_name l) tests ->
  judged l E source tests w = inr r ->
  success r = false ->
  exists error,
    overallError r = Some error
    /\ fst (judgeSubmission getQuestionById E body w)
       = inr (Report {| status := WrongAnswer;
                        report_totalTests := length tests;
                        report_passedTests := 0;
                        report_results := [];
                        report_success := false;
                        report_error := Some error |}).
Proof.
  intros Ha Hr Hs.
  destruct Ha as (id & q & Hid & Hz & Hc & Hne & Hl & _ & Hq & Ht & Hn).
  rewrite (judgeSubmission_dispatch getQuestionById E body w id source l q tests)
    by assumption.
  assert (Hshape : exists e, r = {| success := false; totalTests := length tests;
                                    passedTests := 0; results := [];
                                    overallError := Some e |}).
  { destruct (judged_cases l E source tests w r Hr) as [[e He]|(so & se & _ & Hp)].
    - exists (ExecutionError e).
      assert (r = execution_failed tests e) as -> by congruence. reflexivity.
    - assert (r = parseJudgeOutput so tests) as -> by congruence.
      unfold parseJudgeOutput in *. destruct (decode so) as [e|[rs kept]];
        [eexists; reflexivity | discriminate]. }
  destruct Hshape as [e ->]. exists e. split; [reflexivity|].
  unfold judged in Hr. unfold try_catch, mbind, M_bind, bind.
  destruct (execute l E source tests w) as [[?|r'] w']; cbn in Hr; [discriminate|].
  injection Hr as ->.
  unfold respond, lift, mbind, mret, M_bind, M_ret, bind, ret, verdict_of. cbn.
  destruct tests; [contradiction | reflexivity].
Qed.

Lemma failed_run_is_reported_as_wrong_answer_witness :
  exists error,
    fst (judgeSubmission catalog (calm 7 crashes)
           (submission "javascript" crashing_code) empty_world)
    = inr (Report {| status := WrongAnswer;
                     report_totalTests := 1;
                     report_passedTests := 0;
                     report_results := [];
                     report_success := false;
                     report_error := Some error |}).
Proof.
  destruct (failed_run_is_reported_as_wrong_answer catalog (calm 7 crashes)
              (submission "javascript" crashing_code) empty_world
              crashing_code JavaScript one_test
              (execution_failed one_test (Error (txt "Error: boom"))))
    as (error & _ & H).
  - exists (Number false 1 0), {| testCases := Some one_test |}.
    repeat split; discriminate.
  - reflexivity.
  - reflexivity.
  - exists error. exact H.
Defined.

(** ** More on the drivers *)

Section DriverInputs.

Import Harness.

Lemma includes_app c a b : includes c (a ++ b) = includes c a || includes c b.
Proof. unfold includes. apply existsb_app. Qed.

Lemma includes_cons c d s : includes c (d :: s) = (c =? d) || includes c s.
Proof. reflexivity. Qed.

Lemma indexOf_absent c s : includes c s = false -> indexOf c s = (-1)%Z.
Proof.
  induction s as [|d s IH]; [reflexivity|]. rewrite includes_cons.
  cbn [indexOf]. destruct (c =? d); [discriminate|]. cbn [orb]. intros H.
  rewrite (IH H). reflexivity.
Qed.

Lemma indexOf_first c pre post :
  includes c pre = false -> indexOf c (pre ++ c :: post) = Z.of_nat (length pre).
Proof.
  induction pre as [|d pre IH]; cbn [app indexOf length].
  - rewrite N.eqb_refl. reflexivity.
  - rewrite includes_cons. destruct (c =? d); [discriminate|]. cbn [orb].
    intros H. rewrite (IH H).
    destruct (Z.ltb_spec (Z.of_nat (length pre)) 0); lia.
Qed.

Lemma includes_split c s :
  includes c s = true ->
  exists pre post, s = pre ++ c :: post /\ includes c pre = false.
Proof.
  induction s as [|d s IH]; [discriminate|]. rewrite includes_cons.
  destruct (N.eqb_spec c d) as [<-|Hne]; cbn [orb].
  - intros _. exists [], s. split; reflexivity.
  - intros H. destruct (IH H) as (pre & post & -> & Hpre).
    exists (d :: pre), post. split; [reflexivity|].
    rewrite includes_cons, Hpre. apply N.eqb_neq in Hne. rewrite Hne. reflexivity.
Qed.

(** Splitting at a character gives one more part than the text has
    occurrences of it. *)
Lemma split_length c s : length (split c s) = S (count_occ N.eq_dec s c).
Proof.
  induction s as [|d s IH]; [reflexivity|]. cbn.
  destruct (N.eqb_spec c d) as [<-|Hne].
  - cbn. rewrite IH. destruct (N.eq_dec c c); [reflexivity|contradiction].
  - destruct (split c s) as [|part parts] eqn:Hs; [discriminate|]. cbn in *.
    destruct (N.eq_dec d c); [congruence | exact IH].
Qed.

Lemma includes_count c s : includes c s = true -> (0 < count_occ N.eq_dec s c)%nat.
Proof.
  intros H. destruct (includes_split c s H) as (pre & post & -> & _).
  rewrite count_occ_app. cbn. destruct (N.eq_dec c c); [lia|contradiction].
Qed.

Lemma split_has_two_parts c s :
  includes c s = true -> (2 <=? length (split c s))%nat = true.
Proof.
  intros H. apply Nat.leb_le. rewrite split_length.
  pose proof (includes_count c s H). lia.
Qed.

Lemma substring_inner (pre body post : text) :
  substring (pre ++ body ++ post) (Z.of_nat (length pre))
    (Z.of_nat (length pre + length body)) = body.
Proof.
  unfold substring, clamp. rewrite !length_app.
  replace (Z.to_nat (Z.min (Z.max (Z.of_nat (length pre)) 0) _)) with (length pre) by lia.
  replace (Z.to_nat (Z.min (Z.max (Z.of_nat (length pre + length body)) 0) _))
    with (length pre + length body)%nat by lia.
  rewrite Nat.min_l, Nat.max_r by lia.
  rewrite drop_app_length.
  replace (length pre + length body - length pre)%nat with (length body) by lia.
  apply take_app_length.
Qed.

Lemma slice_inner (pre body post : text) :
  slice (pre ++ body ++ post) (Z.of_nat (length pre))
    (Z.of_nat (length pre + length body)) = body.
Proof.
  unfold slice, clamp. rewrite !length_app.
  replace (Z.to_nat (Z.min (Z.max (Z.of_nat (length pre)) 0) _)) with (length pre) by lia.
  replace (Z.to_nat (Z.min (Z.max (Z.of_nat (length pre + length body)) 0) _))
    with (length pre + length body)%nat by lia.
  rewrite drop_app_length.
  replace (length pre + length body - length pre)%nat with (length body) by lia.
  apply take_app_length.
Qed.

Lemma substring_to_start (s : text) (a : nat) :
  (a <= length s)%nat -> substring s (Z.of_nat a) 0 = take a s.
Proof.
  intros Ha. unfold substring, clamp.
  replace (Z.to_nat (Z.min (Z.max (Z.of_nat a) 0) _)) with a by lia.
  replace (Z.to_nat (Z.min (Z.max 0 0) (Z.of_nat (length s)))) with 0%nat by lia.
  rewrite Nat.min_r, Nat.max_l by lia. rewrite Nat.sub_0_r. reflexivity.
Qed.

End DriverInputs.

(** X13.  The guard on the number of parts never fails: a text that holds a comma
    splits into at least two parts.  So the JavaScript driver always takes
    one of its three branches, and the Python driver takes none only for a
    text outside the array shape whose double quotes do not pair up. *)
Theorem the_length_guard_never_fails :
  (forall G input,
     Harness.JavaScript.parse_input G input <> inr Harness.JavaScript.Nothing)
  /\ (forall I input,
        Harness.Python.parse_input I input = inr Harness.Python.Nothing ->
        includes (ch "[") input && includes (ch ",") input = false
        /\ includes 34 input = true /\ Harness.quoted input = None).
Proof.
  split.
  - intros G input. unfold Harness.JavaScript.parse_input.
    destruct (includes (ch "[") input); cbn [andb].
    + destruct (includes (ch ",") input) eqn:Hc.
      * rewrite (split_has_two_parts _ _ Hc).
        destruct (JSON_parse _); discriminate.
      * destruct (includes 34 input); [destruct (Harness.quoted input)|]; discriminate.
    + destruct (includes 34 input); [destruct (Harness.quoted input)|]; discriminate.
  - intros I input. unfold Harness.Python.parse_input.
    assert (Hrest : (if includes 34 input
                     then match Harness.quoted input with
                          | Some s => inr (Harness.Python.Quoted s)
                          | None => inr Harness.Python.Nothing
                          end
                     else match Harness.Python.int I input with
                          | inl m => inl m
                          | inr num => inr (Harness.Python.Integer num)
                          end) = inr Harness.Python.Nothing ->
                    includes 34 input = true /\ Harness.quoted input = None).
    { destruct (includes 34 input).
      - destruct (Harness.quoted input); [discriminate | auto].
      - destruct (Harness.Python.int I input); discriminate. }
    destruct (includes (ch "[") input); cbn [andb].
    + destruct (includes (ch ",") input) eqn:Hc.
      * rewrite (split_has_two_parts _ _ Hc). unfold Harness.Python.index.
        repeat match goal with
        | |- context [if ?b then _ else _] => destruct b
        | |- context [match ?x with inl _ => _ | inr _ => _ end] => destruct x
        end; discriminate.
      * intros H. split; [reflexivity | exact (Hrest H)].
    + intros H. split; [reflexivity | exact (Hrest H)].
Qed.

Lemma the_length_guard_never_fails_witness :
  includes 34 (dq "'open") = true /\ Harness.quoted (dq "'open") = None.
Proof.
  exact (proj2 (proj2 the_length_guard_never_fails lenient (dq "'open") eq_refl)).
Defined.

(** X14.  The array that both drivers read.  For a text with a comma whose first
    opening bracket comes before its first closing bracket, the array is
    decoded from the text between the two, brackets included, and the
    target is what follows the last comma, with the white space around it
    removed. *)
Theorem array_part_of_a_bracketed_input G I pre body post :
  includes (ch "[") pre = false -> includes (ch "]") pre = false ->
  includes (ch "]") body = false ->
  let input := pre ++ ch "[" :: body ++ ch "]" :: post in
  let arrayPart := ch "[" :: body ++ [ch "]"] in
  includes (ch ",") input = true ->
  Harness.JavaScript.parse_input G input
  = match JSON_parse arrayPart with
    | None => inl (Harness.JavaScript.syntax_error_message G arrayPart)
    | Some nums =>
        inr (Harness.JavaScript.ArrayAndTarget nums
               (Harness.JavaScript.trim (List.last (Harness.split (ch ",") input) [])))
    end
  /\ Harness.Python.parse_input I input
     = match Harness.Python.json_loads I arrayPart with
       | inl m => inl m
       | inr nums =>
           match Harness.Python.int I
                   (Harness.Python.strip (List.last (Harness.split (ch ",") input) []))
           with
           | inl m => inl m
           | inr target => inr (Harness.Python.ArrayAndTarget nums target)
           end
       end.
Proof.
  intros Hpre1 Hpre2 Hbody input arrayPart Hcomma.
  assert (Hopen : Harness.indexOf (ch "[") input = Z.of_nat (length pre)).
  { apply indexOf_first, Hpre1. }
  assert (Hclose : Harness.indexOf (ch "]") input
                   = Z.of_nat (length pre + S (length body))).
  { unfold input.
    change (pre ++ ch "[" :: body ++ ch "]" :: post)
      with (pre ++ (ch "[" :: body) ++ ch "]" :: post).
    rewrite app_assoc, indexOf_first.
    - rewrite length_app. reflexivity.
    - rewrite includes_app, Hpre2, includes_cons, Hbody. reflexivity. }
  assert (Hhas : includes (ch "[") input = true).
  { unfold input. rewrite includes_app, includes_cons, N.eqb_refl.
    apply orb_true_r. }
  assert (Hinput : input = pre ++ arrayPart ++ post).
  { unfold input, arrayPart. cbn [app]. rewrite <- app_assoc. reflexivity. }
  assert (Hend : (Z.of_nat (length pre + S (length body)) + 1)%Z
                 = Z.of_nat (length pre + length arrayPart)).
  { unfold arrayPart. cbn [length]. rewrite length_app. cbn [length]. lia. }
  split.
  - unfold Harness.JavaScript.parse_input.
    rewrite Hhas, Hcomma, (split_has_two_parts _ _ Hcomma). cbn [andb].
    rewrite Hopen, Hclose, Hend.
    replace (Harness.substring input (Z.of_nat (length pre))
               (Z.of_nat (length pre + length arrayPart))) with arrayPart
      by (rewrite Hinput; symmetry; apply substring_inner).
    reflexivity.
  - unfold Harness.Python.parse_input, Harness.Python.index.
    rewrite Hhas, Hcomma, (split_has_two_parts _ _ Hcomma). cbn [andb].
    rewrite Hopen, Hclose.
    destruct (Z.ltb_spec (Z.of_nat (length pre)) 0); [lia|].
    destruct (Z.ltb_spec (Z.of_nat (length pre + S (length body))) 0); [lia|].
    rewrite Hend.
    replace (Harness.slice input (Z.of_nat (length pre))
               (Z.of_nat (length pre + length arrayPart))) with arrayPart
      by (rewrite Hinput; symmetry; apply slice_inner).
    reflexivity.
Qed.

Lemma array_part_of_a_bracketed_input_witness :
  Harness.JavaScript.parse_input node (txt "[2,7,11,15], 9")
  = inr (Harness.JavaScript.ArrayAndTarget
           (JArr [JNum (Number false 2 0); JNum (Number false 7 0);
                  JNum (Number false 11 0); JNum (Number false 15 0)])
           (txt "9")).
Proof.
  exact (proj1 (array_part_of_a_bracketed_input node lenient
                  [] (txt "2,7,11,15") (txt ", 9")
                  eq_refl eq_refl eq_refl eq_refl)).
Defined.

(** X15.  A text of the array shape that has no closing bracket.  The JavaScript
    driver decodes the text in front of the opening bracket instead (the
    bounds of [substring] are swapped), so its array can be any JSON value;
    the Python driver stops with the error of [index]. *)
Theorem array_part_without_closing_bracket G I input :
  includes (ch "[") input = true -> includes (ch ",") input = true ->
  includes (ch "]") input = false ->
  exists front rest,
    input = front ++ ch "[" :: rest /\ includes (ch "[") front = false
    /\ Harness.JavaScript.parse_input G input
       = match JSON_parse front with
         | None => inl (Harness.JavaScript.syntax_error_message G front)
         | Some nums =>
             inr (Harness.JavaScript.ArrayAndTarget nums
                    (Harness.JavaScript.trim
                       (List.last (Harness.split (ch ",") input) [])))
         end
    /\ Harness.Python.parse_input I input
       = inl (Harness.Python.substring_not_found I).
Proof.
  intros Hopen Hcomma Hclose.
  destruct (includes_split _ _ Hopen) as (front & rest & Hinput & Hfront).
  exists front, rest. split; [exact Hinput|]. split; [exact Hfront|].
  assert (Ha : Harness.indexOf (ch "[") input = Z.of_nat (length front)).
  { rewrite Hinput. apply indexOf_first, Hfront. }
  assert (Hb : Harness.indexOf (ch "]") input = (-1)%Z).
  { apply indexOf_absent, Hclose. }
  split.
  - unfold Harness.JavaScript.parse_input.
    rewrite Hopen, Hcomma, (split_has_two_parts _ _ Hcomma), Ha, Hb. cbn [andb].
    change (-1 + 1)%Z with 0%Z. rewrite substring_to_start.
    + replace (take (length front) input) with front
        by (rewrite Hinput, take_app_length; reflexivity).
      reflexivity.
    + rewrite Hinput, length_app. lia.
  - unfold Harness.Python.parse_input, Harness.Python.index.
    rewrite Hopen, Hcomma, (split_has_two_parts _ _ Hcomma), Ha, Hb. cbn [andb].
    destruct (Z.ltb_spec (Z.of_nat (length front)) 0); [lia|]. reflexivity.
Qed.

Lemma array_part_without_closing_bracket_witness :
  Harness.JavaScript.parse_input node (txt "7 [1,2")
  = inr (Harness.JavaScript.ArrayAndTarget (JNum (Number false 7 0)) (txt "2"))
  /\ Harness.Python.parse_input lenient (txt "7 [1,2")
     = inl (txt "substring not found").
Proof.
  destruct (array_part_without_closing_bracket node lenient (txt "7 [1,2")
              eq_refl eq_refl eq_refl) as (front & rest & Hin & Hfront & Hjs & Hpy).
  split; [|exact Hpy].
  rewrite Hjs.
  assert (front = txt "7 ") as ->.
  { revert Hin Hfront. vm_compute.
    destruct front as [|a [|b [|c front]]]; intros [=] Hf; subst;
      try discriminate; reflexivity. }
  vm_compute. reflexivity.
Defined.



(** ** The database connection *)

(** X18.  Whatever calls are made and in whatever order their parts are resumed,
    a held [Db] belongs to the held client, and every client that is held or
    closed has been constructed. *)
Theorem the_db_belongs_to_the_held_client N parts :
  let s := foldl (Database.resume N) Database.fresh parts in
  (forall d, Database.db s = Some d -> Database.client s = Some d)
  /\ (forall c, Database.client s = Some c -> (c < Database.made s)%nat).
Proof.
  cbn zeta.
  assert (Hinv : forall s,
            ((forall d, Database.db s = Some d -> Database.client s = Some d)
             /\ (forall c, Database.client s = Some c -> (c < Database.made s)%nat)) ->
            forall p,
            (forall d, Database.db (Database.resume N s p) = Some d ->
                       Database.client (Database.resume N s p) = Some d)
            /\ (forall c, Database.client (Database.resume N s p) = Some c ->
                          (c < Database.made (Database.resume N s p))%nat)).
  { intros s [Hdb Hcl] [|c|c]; cbn.
    - unfold Database.connect_begin. destruct (Database.db s) eqn:Hd; cbn.
      + rewrite Hd. auto.
      + split; [discriminate|]. intros c [= <-]. lia.
    - unfold Database.connect_finish.
      destruct (Database.connects N c); [|auto].
      destruct (Database.client s) as [held|] eqn:Hc; cbn; [|rewrite Hc; auto].
      split; [intros d [= <-]; reflexivity | auto].
    - unfold Database.close_finish.
      destruct (Database.closes N c); cbn; [|auto]. split; discriminate. }
  induction parts as [|p parts IH] using rev_ind.
  - cbn. split; discriminate.
  - rewrite foldl_snoc. apply Hinv, IH.
Qed.





(** X21.  Two calls of [connectToDatabase] that overlap.  When the second begins
    before the first resumes, each constructs a client, both return the [Db]
    of the second client, and the first client is held by nothing. *)
Theorem overlapping_connects_share_the_second_client N s :
  Database.db s = None ->
  Database.connects N (Database.made s) = true ->
  Database.connects N (S (Database.made s)) = true ->
  exists s1 s2 s3 s4,
    Database.connect_begin s = inr (Database.made s, s1)
    /\ Database.connect_begin s1 = inr (S (Database.made s), s2)
    /\ Database.connect_finish N (Database.made s) s2
       = (inr (S (Database.made s)), s3)
    /\ Database.connect_finish N (S (Database.made s)) s3
       = (inr (S (Database.made s)), s4)
    /\ Database.client s4 = Some (S (Database.made s))
    /\ Database.made s4 = S (S (Database.made s))
    /\ Database.closed s4 = Database.closed s.
Proof.
  intros Hd H1 H2.
  unfold Database.connect_begin, Database.connect_finish. rewrite Hd. cbn.
  do 4 eexists. split; [reflexivity|]. split; [reflexivity|].
  rewrite H1, H2. cbn. repeat split; reflexivity.
Qed.

Lemma overlapping_connects_share_the_second_client_witness :
  let N := {| Database.connects := fun _ => true; Database.closes := fun _ => true |} in
  exists s1 s2 s3 s4,
    Database.connect_begin Database.fresh = inr (0%nat, s1)
    /\ Database.connect_begin s1 = inr (1%nat, s2)
    /\ Database.connect_finish N 0 s2 = (inr 1%nat, s3)
    /\ Database.connect_finish N 1 s3 = (inr 1%nat, s4)
    /\ Database.client s4 = Some 1%nat.
Proof.
  intros N.
  destruct (overlapping_connects_share_the_second_client N Database.fresh
              eq_refl eq_refl eq_refl)
    as (s1 & s2 & s3 & s4 & H1 & H2 & H3 & H4 & H5 & _).
  exists s1, s2, s3, s4. auto.
Defined.

(** X22.  A connection that is closed while a call of [connectToDatabase] waits:
    the call resumes with no client to take the [Db] from and throws,
    although its [connect] resolved; the module is left with nothing
    held. *)
Theorem closing_under_a_pending_connect N s :
  Database.db s = None ->
  Database.connects N (Database.made s) = true ->
  Database.closes N (Database.made s) = true ->
  exists s1 s2,
    Database.connect_begin s = inr (Database.made s, s1)
    /\ Database.closeDatabaseConnection N s1 = (inr tt, s2)
    /\ Database.connect_finish N (Database.made s) s2 = (inl Database.NoClient, s2)
    /\ Database.client s2 = None /\ Database.db s2 = None
    /\ Database.closed s2 = Database.made s :: Database.closed s.
Proof.
  intros Hd H1 H2.
  unfold Database.connect_begin, Database.closeDatabaseConnection,
    Database.close_begin, Database.close_finish, Database.connect_finish.
  rewrite Hd. cbn. do 2 eexists.
  split; [reflexivity|]. cbn. rewrite H2. cbn.
  split; [reflexivity|]. cbn. rewrite H1.
  repeat split; reflexivity.
Qed.

Lemma closing_under_a_pending_connect_witness :
  let N := {| Database.connects := fun _ => true; Database.closes := fun _ => true |} in
  exists s1 s2,
    Database.connect_begin Database.fresh = inr (0%nat, s1)
    /\ Database.closeDatabaseConnection N s1 = (inr tt, s2)
    /\ Database.connect_finish N 0 s2 = (inl Database.NoClient, s2).
Proof.
  intros N.
  destruct (closing_under_a_pending_connect N Database.fresh eq_refl eq_refl eq_refl)
    as (s1 & s2 & H1 & H2 & H3 & _).
  exists s1, s2. auto.
Defined.

(** ** The C++ driver *)

Section Numerals.

Lemma txt_String a s : txt (String a s) = N_of_ascii a :: txt s.
Proof. reflexivity. Qed.

Lemma txt_app s1 s2 : txt (s1 +:+ s2) = txt s1 ++ txt s2.
Proof.
  induction s1 as [|a s1 IH]; [reflexivity|].
  change (String a s1 +:+ s2) with (String a (s1 +:+ s2)).
  rewrite !txt_String, IH. reflexivity.
Qed.

Lemma pretty_N_char_digit m :
  m < 10 -> N_of_ascii (pretty_N_char m) = 48 + m.
Proof.
  intros H.
  assert (m = 0 \/ m = 1 \/ m = 2 \/ m = 3 \/ m = 4 \/ m = 5 \/ m = 6
          \/ m = 7 \/ m = 8 \/ m = 9) as Hm by lia.
  repeat destruct Hm as [->|Hm]; try subst m; reflexivity.
Qed.

Lemma decimal_snoc ds d : decimal (ds ++ [d]) = 10 * decimal ds + (d - 48).
Proof. unfold decimal. rewrite fold_left_app. reflexivity. Qed.

(** The digits that [pretty] writes for a positive number: no leading zero,
    and their value is the number. *)
Lemma pretty_N_go_digits x s :
  0 < x ->
  exists d ds,
    txt (pretty_N_go x s) = d :: ds ++ txt s
    /\ Forall (fun c => is_digit c = true) (d :: ds)
    /\ d <> 48
    /\ decimal (d :: ds) = x.
Proof.
  revert s. induction (N.lt_wf_0 x) as [x _ IH]. intros s Hx.
  rewrite pretty_N_go_step by assumption.
  assert (Hm : x `mod` 10 < 10) by (apply N.mod_lt; lia).
  assert (E : x = 10 * (x `div` 10) + x `mod` 10) by (apply N.div_mod; lia).
  assert (Hc := pretty_N_char_digit _ Hm).
  assert (Hq : x `div` 10 < x) by (apply N.div_lt; lia).
  revert Hm E Hc Hq.
  generalize (x `mod` 10) as m. generalize (x `div` 10) as q.
  intros q m Hm E Hc Hq.
  assert (Hdigit : is_digit (48 + m) = true).
  { unfold is_digit. apply andb_true_iff. split; apply N.leb_le; lia. }
  destruct (N.eq_dec q 0) as [Hz|Hnz].
  - rewrite Hz, pretty_N_go_0, txt_String, Hc.
    exists (48 + m), []. cbn [app].
    repeat split.
    + constructor; [assumption | constructor].
    + lia.
    + unfold decimal. cbn [fold_left]. lia.
  - assert (Hpos : 0 < q) by lia.
    destruct (IH q Hq (String (pretty_N_char m) s) Hpos)
      as (d & ds & Heq & Hall & Hd & Hval).
    rewrite Heq, txt_String, Hc.
    exists d, (ds ++ [48 + m]).
    repeat split.
    + rewrite <- app_assoc. reflexivity.
    + rewrite app_comm_cons. apply Forall_app. split; [assumption|].
      constructor; [assumption | constructor].
    + assumption.
    + rewrite app_comm_cons, decimal_snoc, Hval. lia.
Qed.

Lemma pretty_N_digits n :
  exists d ds,
    txt (pretty n) = d :: ds
    /\ Forall (fun c => is_digit c = true) (d :: ds)
    /\ (d = 48 -> ds = [])
    /\ decimal (d :: ds) = n.
Proof.
  unfold pretty, pretty_N. destruct (decide (n = 0)) as [->|Hn].
  - exists 48, []. repeat split; try reflexivity. repeat constructor.
  - assert (Hpos : 0 < n) by lia.
    destruct (pretty_N_go_digits n EmptyString Hpos)
      as (d & ds & Heq & Hall & Hd & Hval).
    exists d, ds. rewrite Heq, app_nil_r. repeat split; try assumption.
    intros ->. contradiction.
Qed.

(** [to_string]: a minus sign for a negative number, then the digits of
    its magnitude. *)
Lemma to_string_digits z :
  CppHarness.to_string z
  = (if (z <? 0)%Z then [ch "-"] else []) ++ txt (pretty (Z.abs_N z)).
Proof.
  unfold CppHarness.to_string. destruct z as [|p|p]; reflexivity.
Qed.





(** The first character of a numeral, and the kind of all of them. *)
Lemma to_string_head z :
  exists c w, CppHarness.to_string z = c :: w
              /\ (is_digit c = true \/ c = ch "-")
              /\ Forall (fun c => is_digit c = true \/ c = ch "-") (c :: w).
Proof.
  rewrite to_string_digits.
  destruct (pretty_N_digits (Z.abs_N z)) as (d & ds & Heq & Hall & _ & _).
  rewrite Heq.
  assert (Hall' : Forall (fun c => is_digit c = true \/ c = ch "-") (d :: ds)).
  { eapply Forall_impl; [exact Hall|]. cbn. auto. }
  destruct (z <? 0)%Z; cbn [app].
  - exists (ch "-"), (d :: ds). repeat split; auto.
  - exists d, ds. repeat split; auto. inversion Hall; auto.
Qed.

End Numerals.


Section Lexing.

Lemma lex_from_app st a b : lex_from st (a ++ b) = lex_from (lex_from st a) b.
Proof. unfold lex_from. apply foldl_app. Qed.












End Lexing.

Section ReadingTheLine.



Lemma parse_from_app st a b :
  parse_from st (a ++ b) = parse_from (parse_from st a) b.
Proof. unfold parse_from. apply foldl_app. Qed.
















End ReadingTheLine.

Section CppRuns.





(** What a call leaves in [actualOutput]. *)
Lemma call_outputs P a out :
  CppHarness.call P a = Some (CppHarness.Output out) ->
  (exists x y, out = txt "[" ++ CppHarness.to_string x ++ txt ","
                     ++ CppHarness.to_string y ++ txt "]")
  \/ (exists z, out = CppHarness.to_string z)
  \/ out = txt "true" \/ out = txt "false".
Proof.
  destruct a as [nums target|nums|str|num]; cbn [CppHarness.call].
  - destruct (CppHarness.twoSum P nums target) as [[|x [|y result]]|];
      try discriminate.
    intros [= <-]. left. eauto.
  - destruct (CppHarness.maxSubArray P nums) as [z|]; [|discriminate].
    intros [= <-]. right. left. eauto.
  - destruct (CppHarness.isValid P str) as [[|]|]; try discriminate;
      intros [= <-]; auto.
  - destruct (CppHarness.climbStairs P num) as [z|]; [|discriminate].
    intros [= <-]. right. left. eauto.
Qed.

Lemma attempt_outputs P input out :
  CppHarness.attempt P input = CppHarness.Output out ->
  out = CppHarness.runtime_error
  \/ (exists a, CppHarness.parse_input input = Some a
                /\ CppHarness.call P a = None /\ out = Harness.not_found)
  \/ (exists a, CppHarness.parse_input input = Some a
                /\ CppHarness.call P a = Some (CppHarness.Output out)).
Proof.
  unfold CppHarness.attempt.
  destruct (CppHarness.parse_input input) as [a|]; [|intros [= <-]; auto].
  destruct (CppHarness.call P a) as [b|] eqn:Hcall.
  - intros ->. right. right. eauto.
  - intros [= <-]. right. left. eauto.
Qed.




End CppRuns.



(** The same run with a [climbStairs] that writes a line of its own: the
    line of the driver is cut in two, what is left after the sentinel is
    no JSON text, and the run counts for nothing. *)
Example a_line_of_the_user_code_voids_the_run :
  let P := {| CppHarness.twoSum := fun nums target => Some [0%Z; 1%Z];
              CppHarness.maxSubArray := fun nums => None;
              CppHarness.isValid := fun str => Some true;
              CppHarness.climbStairs := fun num => Some (num + 1)%Z |} in
  let tests := [(dq "[2,7,11,15], 9", txt "[0,1]"); (txt "3", txt "3")] in
  exists stdout,
    CppHarness.main P tracing (fun _ => 0%Z) tests = Some stdout
    /\ success (parseJudgeOutput stdout one_test) = false
    /\ passedTests (parseJudgeOutput stdout one_test) = 0%nat.
Proof. eexists. vm_compute. repeat split. Qed.

(** X24.  In the C++ driver, the text [ERROR: Function not found or not
    implemented] is the answer of a test exactly when the function that
    the test calls throws.  (A function that is missing stops the
    compiler, so no test runs without one.) *)
Theorem cpp_not_found_means_a_throw P input :
  CppHarness.attempt P input = CppHarness.Output Harness.not_found
  <-> exists a, CppHarness.parse_input input = Some a
                /\ CppHarness.call P a = None.
Proof.
  split.
  - intros H. apply attempt_outputs in H as [H|[(a & Ha & Hc & _)|(a & _ & H)]].
    + discriminate.
    + eauto.
    + exfalso.
      apply call_outputs in H as [(x & y & H)|[(z & H)|[H|H]]];
        try discriminate.
      destruct (to_string_head z) as (c & w & Heq & Hc & _).
      rewrite Heq in H. injection H as <- _.
      destruct Hc; discriminate.
  - intros (a & Ha & Hc). unfold CppHarness.attempt. rewrite Ha, Hc. reflexivity.
Qed.

Section CppInputs.

Lemma find_absent c s : includes c s = false -> CppHarness.find c s 0 = CppHarness.npos.
Proof.
  intros H. unfold CppHarness.find.
  destruct (Z.of_nat (length s) <=? 0)%Z; [reflexivity|].
  change (Z.to_nat 0) with 0%nat. rewrite drop_0, (indexOf_absent _ _ H).
  reflexivity.
Qed.

Lemma find_first c pre post :
  includes c pre = false ->
  CppHarness.find c (pre ++ c :: post) 0 = Z.of_nat (length pre).
Proof.
  intros H. unfold CppHarness.find.
  destruct (Z.leb_spec (Z.of_nat (length (pre ++ c :: post))) 0) as [Hle|_].
  - rewrite length_app in Hle. cbn [length] in Hle. lia.
  - change (Z.to_nat 0) with 0%nat. rewrite drop_0, (indexOf_first _ _ _ H).
    destruct (Z.ltb_spec (Z.of_nat (length pre)) 0); [lia | reflexivity].
Qed.

Lemma find_beyond c s from :
  (Z.of_nat (length s) <= from)%Z -> CppHarness.find c s from = CppHarness.npos.
Proof.
  intros H. unfold CppHarness.find.
  destruct (Z.leb_spec (Z.of_nat (length s)) from); [reflexivity | lia].
Qed.

(** [find] tells whether the character is there, for a text that fits
    in memory. *)
Lemma find_npos c s :
  (Z.of_nat (length s) < CppHarness.npos)%Z ->
  (CppHarness.find c s 0 =? CppHarness.npos)%Z = negb (includes c s).
Proof.
  intros Hlen. destruct (includes c s) eqn:Hc.
  - apply includes_split in Hc as (pre & post & -> & Hpre).
    rewrite find_first by assumption. cbn [negb]. apply Z.eqb_neq.
    rewrite length_app in Hlen. lia.
  - rewrite find_absent by assumption. reflexivity.
Qed.

Lemma substr_rest pre body count :
  (Z.of_nat (length body) <= count)%Z ->
  CppHarness.substr (pre ++ body) (Z.of_nat (length pre)) count = Some body.
Proof.
  intros Hcount. unfold CppHarness.substr. rewrite length_app.
  destruct (Z.ltb_spec (Z.of_nat (length pre + length body)) (Z.of_nat (length pre)));
    [lia|].
  rewrite Nat2Z.id, drop_app_length. f_equal.
  apply take_ge. lia.
Qed.

Lemma substr_inner pre body post :
  CppHarness.substr (pre ++ body ++ post) (Z.of_nat (length pre))
    (Z.of_nat (length body)) = Some body.
Proof.
  unfold CppHarness.substr. rewrite !length_app.
  destruct (Z.ltb_spec (Z.of_nat (length pre + (length body + length post)))
              (Z.of_nat (length pre))); [lia|].
  rewrite Nat2Z.id, drop_app_length. f_equal.
  replace (Z.to_nat _) with (length body) by lia.
  apply take_app_length.
Qed.

Lemma wrap_small z :
  (0 <= z < 2 ^ 64)%Z -> CppHarness.wrap z = z.
Proof. intros H. unfold CppHarness.wrap. apply Z.mod_small. exact H. Qed.

End CppInputs.

(** X25.  An array with one element never reaches a user function.  The C++
    driver takes the array branch only for an input with a comma; an
    input that starts with a bracket and has neither a comma nor a double
    quote goes to [stoi], which throws, and the test answers
    [ERROR: Runtime error] whatever the user code is. *)
Theorem cpp_single_element_array_is_not_run P rest :
  includes (ch ",") rest = false ->
  includes 34 rest = false ->
  CppHarness.attempt P (ch "[" :: rest) = CppHarness.Output CppHarness.runtime_error.
Proof.
  intros Hcomma Hquote. unfold CppHarness.attempt, CppHarness.parse_input.
  rewrite (find_absent (ch ",") (ch "[" :: rest)) by exact Hcomma.
  rewrite (find_absent 34 (ch "[" :: rest)) by exact Hquote.
  rewrite Z.eqb_refl, andb_false_r. cbn [negb]. cbv iota.
  reflexivity.
Qed.

Lemma cpp_single_element_array_is_not_run_witness :
  let P := {| CppHarness.twoSum := fun nums target => Some nums;
              CppHarness.maxSubArray := fun nums => Some (hd 0%Z nums);
              CppHarness.isValid := fun str => Some true;
              CppHarness.climbStairs := fun num => Some num |} in
  CppHarness.attempt P (txt "[5]") = CppHarness.Output CppHarness.runtime_error.
Proof.
  intros P.
  exact (cpp_single_element_array_is_not_run P (txt "5]") eq_refl eq_refl).
Defined.

(** X26.  An array that is never closed.  For an input with an opening bracket,
    a comma and no closing bracket, the C++ driver reads the array from the
    bracket to the end of the input ([end_bracket] is [npos], and the
    length that [substr] is given wraps around), and takes the branch of
    [maxSubArray], since the search for the comma of the target starts at
    [npos]. *)
Theorem cpp_array_without_closing_bracket pre body :
  includes (ch "[") pre = false ->
  includes (ch "]") (pre ++ body) = false ->
  includes (ch ",") (pre ++ body) = true ->
  (Z.of_nat (length (pre ++ ch "[" :: body)) < CppHarness.npos)%Z ->
  CppHarness.parse_input (pre ++ ch "[" :: body)
  = CppHarness.Array <$> mapM CppHarness.stoi (CppHarness.items body).
Proof.
  intros Hopen Hclose Hcomma Hlen.
  rewrite includes_app in Hclose, Hcomma.
  apply orb_false_iff in Hclose as [Hc1 Hc2].
  assert (Hcomma' : includes (ch ",") (pre ++ ch "[" :: body) = true).
  { rewrite includes_app, includes_cons.
    destruct (includes (ch ",") pre); [reflexivity|].
    cbn [orb] in *. rewrite Hcomma. apply orb_true_r. }
  assert (Hend : CppHarness.find (ch "]") (pre ++ ch "[" :: body) 0 = CppHarness.npos).
  { apply find_absent. rewrite includes_app, includes_cons, Hc1, Hc2. reflexivity. }
  unfold CppHarness.parse_input.
  rewrite (find_npos (ch ",")), Hcomma' by assumption.
  rewrite Hend, find_first by assumption.
  assert (Hp : Z.of_nat (length pre) <> CppHarness.npos).
  { rewrite length_app in Hlen. lia. }
  apply Z.eqb_neq in Hp. rewrite Hp. cbn [negb andb].
  rewrite length_app in Hlen. cbn [length] in Hlen.
  unfold CppHarness.npos in *.
  rewrite (wrap_small (Z.of_nat (length pre) + 1)) by lia.
  rewrite (wrap_small (2 ^ 64 - 1 - Z.of_nat (length pre) - 1)) by lia.
  replace (pre ++ ch "[" :: body) with ((pre ++ [ch "["]) ++ body)
    by (rewrite <- app_assoc; reflexivity).
  replace (Z.of_nat (length pre) + 1)%Z with (Z.of_nat (length (pre ++ [ch "["])))
    by (rewrite length_app; cbn [length]; lia).
  rewrite substr_rest by lia.
  cbn [mbind option_bind].
  rewrite find_beyond by (rewrite !length_app; cbn [length]; lia).
  destruct (mapM CppHarness.stoi (CppHarness.items body)); reflexivity.
Qed.

Lemma cpp_array_without_closing_bracket_witness :
  CppHarness.parse_input (txt "7 [1,2") = Some (CppHarness.Array [1%Z; 2%Z]).
Proof.
  exact (cpp_array_without_closing_bracket (txt "7 ") (txt "1,2")
           eq_refl eq_refl eq_refl eq_refl).
Defined.


Section CppNumbers.

Lemma span_app f pre rest :
  Forall (fun c => f c = true) pre ->
  match rest with c :: _ => f c = false | [] => True end ->
  span f (pre ++ rest) = (pre, rest).
Proof.
  intros Hall Hrest. induction Hall as [|d ds Hd _ IH]; cbn.
  - destruct rest as [|c rest]; [reflexivity|]. cbn. rewrite Hrest. reflexivity.
  - rewrite Hd, IH. reflexivity.
Qed.

Lemma numeral_char_bounds c :
  is_digit c = true \/ c = ch "-" -> 45 <= c <= 57.
Proof.
  intros [H| ->]; [|change (ch "-") with 45; lia].
  unfold is_digit in H. apply andb_true_iff in H as [H1 H2].
  apply N.leb_le in H1, H2. lia.
Qed.

Lemma numeral_excludes c z :
  ~ 45 <= c <= 57 -> includes c (CppHarness.to_string z) = false.
Proof.
  intros Hc. destruct (to_string_head z) as (d & w & -> & _ & Hall).
  induction Hall as [|x xs Hx _ IH]; [reflexivity|].
  rewrite includes_cons, IH. apply numeral_char_bounds in Hx.
  replace (c =? x) with false by (symmetry; apply N.eqb_neq; lia).
  reflexivity.
Qed.

(** [stoi] reads back what [to_string] writes, after any white space. *)
Lemma stoi_to_string spaces z :
  is_blank spaces -> is_int z ->
  CppHarness.stoi (spaces ++ CppHarness.to_string z) = Some z.
Proof.
  intros Hblank Hint. unfold CppHarness.stoi.
  destruct (to_string_head z) as (c & w & Heq & Hc & _).
  rewrite (span_app CppHarness.isspace spaces (CppHarness.to_string z) Hblank).
  2:{ rewrite Heq. apply numeral_char_bounds in Hc.
      unfold CppHarness.isspace.
      replace (c =? 32) with false by (symmetry; apply N.eqb_neq; lia).
      replace (9 <=? c) with true by (symmetry; apply N.leb_le; lia).
      replace (c <=? 13) with false by (symmetry; apply N.leb_gt; lia).
      reflexivity. }
  cbn [snd]. clear c w Heq Hc. rewrite to_string_digits.
  destruct (pretty_N_digits (Z.abs_N z)) as (d & ds & -> & Hall & _ & Hval).
  assert (Hspan := span_app is_digit (d :: ds) [] Hall I).
  rewrite app_nil_r in Hspan.
  assert (Hd : is_digit d = true) by (inversion Hall; assumption).
  assert (Hb := numeral_char_bounds d (or_introl Hd)).
  unfold is_int in Hint.
  destruct (Z.ltb_spec z 0) as [Hneg|Hpos]; cbn [app].
  - change (ch "-" =? ch "-") with true. cbv iota beta.
    rewrite Hspan. cbn [fst]. rewrite Hval.
    replace (- Z.of_N (Z.abs_N z))%Z with z by lia.
    destruct (Z.leb_spec (- 2 ^ 31) z); [|lia].
    destruct (Z.ltb_spec z (2 ^ 31)); [reflexivity | lia].
  - change (ch "-") with 45. change (ch "+") with 43.
    replace (d =? 45) with false by (symmetry; apply N.eqb_neq; unfold is_digit in Hd; apply andb_true_iff in Hd as [H1 _]; apply N.leb_le in H1; lia).
    replace (d =? 43) with false by (symmetry; apply N.eqb_neq; unfold is_digit in Hd; apply andb_true_iff in Hd as [H1 _]; apply N.leb_le in H1; lia).
    rewrite Hspan. cbn [fst]. rewrite Hval.
    replace (Z.of_N (Z.abs_N z)) with z by lia.
    destruct (Z.leb_spec (- 2 ^ 31) z); [|lia].
    destruct (Z.ltb_spec z (2 ^ 31)); [reflexivity | lia].
Qed.

Lemma numeral_not_empty z : CppHarness.to_string z <> [].
Proof. destruct (to_string_head z) as (c & w & -> & _). discriminate. Qed.

Lemma csv_not_empty z nums : csv (z :: nums) <> [].
Proof.
  destruct (to_string_head z) as (c & w & Heq & _).
  destruct nums; cbn [csv]; rewrite Heq; discriminate.
Qed.

Lemma csv_excludes c nums :
  ~ 44 <= c <= 57 -> includes c (csv nums) = false.
Proof.
  intros Hc. induction nums as [|z [|z' nums] IH]; [reflexivity|..].
  - cbn [csv]. apply numeral_excludes. lia.
  - change (csv (z :: z' :: nums))
      with (CppHarness.to_string z ++ ch "," :: csv (z' :: nums)).
    rewrite includes_app, includes_cons, IH, numeral_excludes by lia.
    change (ch ",") with 44.
    replace (c =? 44) with false by (symmetry; apply N.eqb_neq; lia).
    reflexivity.
Qed.

(** The pieces that the [getline] loop reads. *)
Lemma items_from_piece w : forall item,
  includes (ch ",") w = false ->
  CppHarness.items_from item w = [rev item ++ w].
Proof.
  induction w as [|c w IH]; intros item Hw; cbn [CppHarness.items_from].
  - rewrite app_nil_r. reflexivity.
  - rewrite includes_cons in Hw. apply orb_false_iff in Hw as [Hc Hw].
    rewrite N.eqb_sym in Hc. rewrite Hc, IH by assumption.
    cbn [rev]. rewrite <- app_assoc. reflexivity.
Qed.

Lemma items_from_more w rest : forall item,
  includes (ch ",") w = false ->
  rest <> [] ->
  CppHarness.items_from item (w ++ ch "," :: rest)
  = (rev item ++ w) :: CppHarness.items_from [] rest.
Proof.
  induction w as [|c w IH]; intros item Hw Hrest;
    cbn [app CppHarness.items_from].
  - rewrite N.eqb_refl, app_nil_r. destruct rest; [contradiction | reflexivity].
  - rewrite includes_cons in Hw. apply orb_false_iff in Hw as [Hc Hw].
    rewrite N.eqb_sym in Hc. rewrite Hc, IH by assumption.
    cbn [rev]. rewrite <- app_assoc. reflexivity.
Qed.

Lemma items_csv nums :
  CppHarness.items (csv nums) = map CppHarness.to_string nums.
Proof.
  destruct nums as [|z nums]; [reflexivity|].
  unfold CppHarness.items.
  assert (Hne := csv_not_empty z nums).
  destruct (csv (z :: nums)) as [|c s] eqn:Hcsv; [contradiction|].
  rewrite <- Hcsv. clear c s Hcsv Hne.
  revert z. induction nums as [|z' nums IH]; intros z.
  - cbn [csv map]. apply items_from_piece, numeral_excludes.
    change (ch ",") with 44. lia.
  - change (csv (z :: z' :: nums))
      with (CppHarness.to_string z ++ ch "," :: csv (z' :: nums)).
    rewrite items_from_more.
    + rewrite IH. reflexivity.
    + apply numeral_excludes. change (ch ",") with 44. lia.
    + apply csv_not_empty.
Qed.

Lemma stoi_items nums :
  Forall is_int nums ->
  mapM CppHarness.stoi (map CppHarness.to_string nums) = Some nums.
Proof.
  induction 1 as [|z nums Hz _ IH]; [reflexivity|].
  assert (Hs := stoi_to_string [] z (Forall_nil_2 _) Hz). cbn [app] in Hs.
  cbn [map mapM]. rewrite Hs. cbn. rewrite IH. reflexivity.
Qed.

Lemma find_from c pre mid post :
  includes c mid = false ->
  CppHarness.find c (pre ++ mid ++ c :: post) (Z.of_nat (length pre))
  = Z.of_nat (length pre + length mid).
Proof.
  intros Hmid. unfold CppHarness.find. rewrite !length_app. cbn [length].
  destruct (Z.leb_spec (Z.of_nat (length pre + (length mid + S (length post))))
              (Z.of_nat (length pre))); [lia|].
  rewrite Nat2Z.id, drop_app_length, indexOf_first by assumption.
  destruct (Z.ltb_spec (Z.of_nat (length mid)) 0); lia.
Qed.

End CppNumbers.

(** X27.  The input that the driver is written for.  An opening bracket,
    numbers separated by commas, a closing bracket, a comma, white space
    and a number: the C++ driver reads the numbers and the target as they
    are written, and takes the branch of [twoSum]. *)
Theorem cpp_reads_an_array_and_a_target nums target spaces :
  Forall is_int nums -> is_int target -> is_blank spaces ->
  (Z.of_nat (length (csv nums) + length spaces
             + length (CppHarness.to_string target)) < 2 ^ 63)%Z ->
  CppHarness.parse_input
    (txt "[" ++ csv nums ++ txt "]," ++ spaces ++ CppHarness.to_string target)
  = Some (CppHarness.ArrayAndTarget nums target).
Proof.
  intros Hnums Htarget Hblank Hlen.
  set (tail := spaces ++ CppHarness.to_string target).
  assert (Htail : length tail = (length spaces + length (CppHarness.to_string target))%nat)
    by (unfold tail; apply length_app).
  set (input := txt "[" ++ csv nums ++ txt "]," ++ tail).
  assert (Hsize : length input = (length (csv nums) + length tail + 3)%nat).
  { unfold input. rewrite !length_app. cbn [length txt]. cbn. lia. }
  assert (Hopen : CppHarness.find (ch "[") input 0 = 0%Z)
    by (apply (find_first (ch "[") []); reflexivity).
  assert (Hcomma : (CppHarness.find (ch ",") input 0 =? CppHarness.npos)%Z = false).
  { rewrite find_npos by (unfold CppHarness.npos; lia).
    unfold input. rewrite !includes_app.
    replace (includes (ch ",") (txt "],")) with true by reflexivity.
    rewrite orb_true_l, !orb_true_r. reflexivity. }
  assert (Hclose : CppHarness.find (ch "]") input 0
                   = Z.of_nat (length (csv nums) + 1)).
  { change input with ((ch "[" :: csv nums) ++ ch "]" :: ch "," :: tail).
    rewrite find_first.
    - cbn [length]. lia.
    - rewrite includes_cons, csv_excludes by (change (ch "]") with 93; lia).
      reflexivity. }
  unfold CppHarness.parse_input. fold input.
  rewrite Hopen, Hcomma, Hclose.
  change (0 =? CppHarness.npos)%Z with false. cbn [negb andb].
  change (CppHarness.wrap (0 + 1)) with (Z.of_nat (length (txt "["))).
  rewrite (wrap_small (Z.of_nat (length (csv nums) + 1) - 0 - 1)) by lia.
  replace (Z.of_nat (length (csv nums) + 1) - 0 - 1)%Z
    with (Z.of_nat (length (csv nums))) by lia.
  rewrite (substr_inner (txt "[") (csv nums) (txt "]," ++ tail)
           : CppHarness.substr input _ _ = _).
  cbn [mbind option_bind].
  rewrite items_csv, stoi_items by assumption. cbn [mbind option_bind].
  assert (Hfind : CppHarness.find (ch ",") input (Z.of_nat (length (csv nums) + 1))
                  = Z.of_nat (length (csv nums) + 2)).
  { change input with ((ch "[" :: csv nums) ++ [ch "]"] ++ ch "," :: tail).
    replace (length (csv nums) + 1)%nat with (length (ch "[" :: csv nums))
      by (cbn [length]; lia).
    rewrite find_from by reflexivity. cbn [length]. f_equal. lia. }
  rewrite Hfind.
  replace (Z.of_nat (length (csv nums) + 2) =? CppHarness.npos)%Z with false
    by (symmetry; apply Z.eqb_neq; unfold CppHarness.npos; lia).
  cbn [negb].
  rewrite wrap_small by lia.
  replace input with ((txt "[" ++ csv nums ++ txt "],") ++ tail)
    by (unfold input; rewrite <- !app_assoc; reflexivity).
  replace (Z.of_nat (length (csv nums) + 2) + 1)%Z
    with (Z.of_nat (length (txt "[" ++ csv nums ++ txt "],")))
    by (rewrite !length_app; cbn [length txt]; cbn; lia).
  rewrite substr_rest by (unfold CppHarness.npos; lia).
  cbn [mbind option_bind]. unfold tail.
  rewrite stoi_to_string by assumption. reflexivity.
Qed.

Lemma cpp_reads_an_array_and_a_target_witness :
  CppHarness.parse_input (txt "[2,7,11,15], 9")
  = Some (CppHarness.ArrayAndTarget [2%Z; 7%Z; 11%Z; 15%Z] 9%Z).
Proof.
  apply (cpp_reads_an_array_and_a_target [2%Z; 7%Z; 11%Z; 15%Z] 9%Z (txt " ")).
  - repeat constructor; unfold is_int; lia.
  - unfold is_int. lia.
  - repeat constructor.
  - vm_compute. reflexivity.
Defined.
